(** * sem_ver: a SemVer 2.0.0 bump/compare engine

    Shallow embedding of [src/mcp/sem_ver/sem_ver.py].

    Python [str] values are sequences of Unicode code points and are
    modelled as [list Z]; Python [int] values are unbounded and are
    modelled as [Z].  Exceptions are modelled with an error monad. *)

From Stdlib Require Import String Ascii DecimalString ZArith Bool Lia List.
Import ListNotations.
Open Scope Z_scope.

Set Implicit Arguments.

(** ** Python strings *)

Definition pystr := list Z.

(** A string literal of the source (ASCII only), as code points. *)
Definition lit (s : string) : pystr :=
  map (fun a => Z.of_nat (nat_of_ascii a)) (list_ascii_of_string s).

(** [c] lies in one of the closed ranges of [rs]. *)
Fixpoint in_ranges (c : Z) (rs : list (Z * Z)) : bool :=
  match rs with
  | [] => false
  | (lo, hi) :: rs' => ((lo <=? c) && (c <=? hi)) || in_ranges c rs'
  end.

(** [s.startswith("v")] *)
Definition startswith_v (s : pystr) : bool :=
  match s with
  | c :: _ => c =? 118
  | [] => false
  end.

(** [s[1:]] *)
Definition drop1 (s : pystr) : pystr := tl s.

(** [s.split(sep)] for a one-character separator. *)
Fixpoint split (sep : Z) (s : pystr) : list pystr :=
  match s with
  | [] => [[]]
  | c :: s' =>
      if c =? sep then [] :: split sep s'
      else match split sep s' with
           | p :: ps => (c :: p) :: ps
           | [] => [[c]]
           end
  end.

(** [sep.join(parts)] *)
Fixpoint join (sep : pystr) (parts : list pystr) : pystr :=
  match parts with
  | [] => []
  | [p] => p
  | p :: ps => p ++ sep ++ join sep ps
  end.

(** Three-way comparison of strings by code point; [a < b] on [str]
    is [str_ltb a b]. *)
Fixpoint str_compare (a b : pystr) : comparison :=
  match a, b with
  | [], [] => Eq
  | [], _ :: _ => Lt
  | _ :: _, [] => Gt
  | x :: a', y :: b' =>
      match x ?= y with
      | Eq => str_compare a' b'
      | c => c
      end
  end.

Definition str_ltb (a b : pystr) : bool :=
  match str_compare a b with Lt => true | _ => false end.

(** [str(n)] as used by the f-string of [_format_semver], for an
    integer within the interpreter's limit on digits; the entry points
    format 0 and 1 only. *)
Definition str_of_int (n : Z) : pystr :=
  lit (NilZero.string_of_int (Z.to_int n)).

(** ** Unicode digit tables (Unicode 14.0.0, the database of CPython 3.11)

    [str.isdigit] accepts every character whose Numeric_Type is Decimal
    or Digit; [int] and the regular-expression class [\d] accept the
    Decimal ones only.  Decimal digits come in runs of ten consecutive
    code points valued 0 to 9; [decimal_zeros] lists the first code
    point of each run. *)

Definition decimal_zeros : list Z :=
  [48; 1632; 1776; 1984; 2406; 2534; 2662; 2790; 2918; 3046; 3174; 3302;
   3430; 3558; 3664; 3792; 3872; 4160; 4240; 6112; 6160; 6470; 6608; 6784;
   6800; 6992; 7088; 7232; 7248; 42528; 43216; 43264; 43472; 43504; 43600;
   44016; 65296; 66720; 68912; 69734; 69872; 69942; 70096; 70384; 70736;
   70864; 71248; 71360; 71472; 71904; 72016; 72784; 73040; 73120; 92768;
   92864; 93008; 120782; 120792; 120802; 120812; 120822; 123200; 123632;
   125264; 130032].

(** Characters of Numeric_Type Digit that are not Decimal (superscripts,
    circled digits and the like). *)
Definition digit_only_ranges : list (Z * Z) :=
  [(178, 179); (185, 185); (4969, 4977); (6618, 6618); (8304, 8304);
   (8308, 8313); (8320, 8329); (9312, 9320); (9332, 9340); (9352, 9360);
   (9450, 9450); (9461, 9469); (9471, 9471); (10102, 10110);
   (10112, 10120); (10122, 10130); (68160, 68163); (69216, 69224);
   (69714, 69722); (127232, 127242)].

Fixpoint decimal_in (c : Z) (zeros : list Z) : option Z :=
  match zeros with
  | [] => None
  | z :: zs => if (z <=? c) && (c <=? z + 9) then Some (c - z)
               else decimal_in c zs
  end.

(** The value of a decimal digit character, [None] for any other. *)
Definition decimal_value (c : Z) : option Z := decimal_in c decimal_zeros.

Definition chr_isdecimal (c : Z) : bool :=
  match decimal_value c with Some _ => true | None => false end.

Definition chr_isdigit (c : Z) : bool :=
  chr_isdecimal c || in_ranges c digit_only_ranges.

(** [s.isdigit()]: at least one character and all of them digits. *)
Definition isdigit (s : pystr) : bool :=
  match s with
  | [] => false
  | _ => forallb chr_isdigit s
  end.

(** ** Exceptions *)

Inductive exn : Type :=
| ValueError (msg : pystr)
    (** [raise ValueError(msg)] written in the source *)
| IntValueError (literal : pystr)
    (** the [ValueError] raised by [int(literal)]:
        "invalid literal for int() with base 10: ..." *)
| IntLimitError (digits : Z).
    (** the [ValueError] raised by [int] on a string of too many digits:
        "Exceeds the limit (4300 digits) for integer string conversion:
        value has [digits] digits; ..." *)

Inductive result (A : Type) : Type :=
| Ok (a : A)
| Raise (e : exn).

Arguments Ok {A} a.
Arguments Raise {A} e.

Definition bind {A B : Type} (m : result A) (f : A -> result B) : result B :=
  match m with
  | Ok a => f a
  | Raise e => Raise e
  end.

Notation "x <- m ;; k" := (bind m (fun x => k))
  (at level 61, m at next level, right associativity).
Notation "' p <- m ;; k" := (bind m (fun x => let 'p := x in k))
  (at level 61, p pattern, m at next level, right associativity).

(** [int(s)] on the strings it is given here: a capture of one of the
    numeric groups, or an identifier for which [isdigit] holds.  None of
    them has surrounding blanks, a sign or an underscore.  The call
    first reads the decimal digits the string starts with; more of them
    than [int_max_str_digits], the interpreter's default limit, raise
    the limit error, leading zeros counted.  Otherwise the call returns
    the decimal value when every character is a decimal digit and raises
    the invalid-literal error when one is not.  Below the limit
    integers are unbounded. *)
Definition int_max_str_digits : Z := 4300.

(** The number of decimal digits [s] starts with. *)
Fixpoint leading_digits (s : pystr) : Z :=
  match s with
  | [] => 0
  | c :: s' =>
      match decimal_value c with
      | Some _ => 1 + leading_digits s'
      | None => 0
      end
  end.

Fixpoint int_digits (acc : Z) (s : pystr) : option Z :=
  match s with
  | [] => Some acc
  | c :: s' =>
      match decimal_value c with
      | Some d => int_digits (10 * acc + d) s'
      | None => None
      end
  end.

Definition py_int (s : pystr) : result Z :=
  match s with
  | [] => Raise (IntValueError s)
  | _ =>
      if leading_digits s >? int_max_str_digits
      then Raise (IntLimitError (leading_digits s))
      else match int_digits 0 s with
           | Some n => Ok n
           | None => Raise (IntValueError s)
           end
  end.

(** ** Regular expressions: the fragment of [re] the pattern uses *)

Inductive regex : Type :=
| Eps                                (* the empty pattern *)
| Lit (c : Z)                        (* a character, plain or escaped *)
| Dot                                (* [.]: any character but a newline *)
| Digit                              (* the class [\d] *)
| Set_ (rs : list (Z * Z))           (* [[...]] of ranges and characters *)
| Cat (r1 r2 : regex)                (* [r1] then [r2] *)
| Or (r1 r2 : regex)                 (* [r1|r2], [r1] tried first *)
| Rep0 (r : regex)                   (* [r*], greedy *)
| Group (n : nat) (r : regex)        (* the [n]-th capturing group *)
| Bol                                (* [^] *)
| Eol.                               (* [$] *)

(** [r+] and [r?] are greedy too: as many as possible first. *)
Definition Rep1 (r : regex) : regex := Cat r (Rep0 r).
Definition Maybe (r : regex) : regex := Or r Eps.

(** *** Reading a pattern text, as [re.compile] does *)

Definition cat (r1 r2 : regex) : regex :=
  match r2 with
  | Eps => r1
  | _ => Cat r1 r2
  end.

(** The items of a [[...]] set up to the closing bracket: [a-b] is a
    range, anything else (a [-] before the bracket too) stands for
    itself. *)
Fixpoint parse_set (fuel : nat) (s : pystr) (acc : list (Z * Z))
  : option (list (Z * Z) * pystr) :=
  match fuel with
  | O => None
  | S fuel' =>
      match s with
      | [] => None
      | a :: s1 =>
          if a =? 93 then Some (rev acc, s1)
          else match s1 with
               | dash :: b :: s2 =>
                   if (dash =? 45) && negb (b =? 93)
                   then parse_set fuel' s2 ((a, b) :: acc)
                   else parse_set fuel' s1 ((a, a) :: acc)
               | _ => parse_set fuel' s1 ((a, a) :: acc)
               end
      end
  end.

(** A quantifier after an atom. *)
Definition postfix (a : regex) (s : pystr) : regex * pystr :=
  match s with
  | q :: s' =>
      if q =? 42 then (Rep0 a, s')
      else if q =? 43 then (Rep1 a, s')
      else if q =? 63 then (Maybe a, s')
      else (a, s)
  | [] => (a, s)
  end.

(** Recursive descent over the pattern text; [n] is the number the next
    capturing group gets.  A backslash escapes the character after it:
    [\d] is the digit class, an escaped punctuation character is that
    character. *)
Fixpoint parse_alt (fuel : nat) (s : pystr) (n : nat)
  : option (regex * pystr * nat) :=
  match fuel with
  | O => None
  | S fuel' =>
      match parse_seq fuel' s n with
      | Some (r1, c :: s1, n1) =>
          if c =? 124 then
            match parse_alt fuel' s1 n1 with
            | Some (r2, s2, n2) => Some (Or r1 r2, s2, n2)
            | None => None
            end
          else Some (r1, c :: s1, n1)
      | other => other
      end
  end
with parse_seq (fuel : nat) (s : pystr) (n : nat)
  : option (regex * pystr * nat) :=
  match fuel with
  | O => None
  | S fuel' =>
      match s with
      | [] => Some (Eps, s, n)
      | c :: _ =>
          if (c =? 124) || (c =? 41) then Some (Eps, s, n)
          else
            match parse_atom fuel' s n with
            | Some (a, s1, n1) =>
                let (q, s2) := postfix a s1 in
                match parse_seq fuel' s2 n1 with
                | Some (r, s3, n3) => Some (cat q r, s3, n3)
                | None => None
                end
            | None => None
            end
      end
  end
with parse_atom (fuel : nat) (s : pystr) (n : nat)
  : option (regex * pystr * nat) :=
  match fuel with
  | O => None
  | S fuel' =>
      match s with
      | [] => None
      | c :: s1 =>
          if c =? 40 then
            match s1 with
            | 63 :: 58 :: s2 =>
                match parse_alt fuel' s2 n with
                | Some (r, d :: s3, n3) =>
                    if d =? 41 then Some (r, s3, n3) else None
                | _ => None
                end
            | _ =>
                match parse_alt fuel' s1 (S n) with
                | Some (r, d :: s3, n3) =>
                    if d =? 41 then Some (Group n r, s3, n3) else None
                | _ => None
                end
            end
          else if c =? 91 then
            match parse_set (length s1) s1 [] with
            | Some (rs, s2) => Some (Set_ rs, s2, n)
            | None => None
            end
          else if c =? 92 then
            match s1 with
            | e :: s2 => Some (if e =? 100 then Digit else Lit e, s2, n)
            | [] => None
            end
          else if c =? 46 then Some (Dot, s1, n)
          else if c =? 94 then Some (Bol, s1, n)
          else if c =? 36 then Some (Eol, s1, n)
          else if (c =? 42) || (c =? 43) || (c =? 63) then None
          else Some (Lit c, s1, n)
      end
  end.

(** [re.compile(pattern)] *)
Definition re_compile (pattern : pystr) : option regex :=
  match parse_alt (3 * length pattern + 3) pattern 1 with
  | Some (r, [], _) => Some r
  | _ => None
  end.

(** *** Matching, as [Pattern.match] does

    A backtracking matcher in continuation-passing style: alternatives
    and repetitions are tried in the order of [re], and the first way to
    reach the end of the pattern wins.  [pos] is the index in the subject
    of the first character of [s], the part still to be read. *)

Definition captures := nat -> option pystr.

Definition no_captures : captures := fun _ => None.

Definition set_capture (n : nat) (w : pystr) (c : captures) : captures :=
  fun m => if Nat.eqb m n then Some w else c m.

Definition cont := nat -> pystr -> captures -> option captures.

(** A greedy repetition of [body]: one more iteration if possible, else
    go on with [k].  An iteration has to consume something to be
    repeated, so [fuel], the number of characters left, bounds the
    count. *)
Fixpoint rep_loop (body : nat -> pystr -> captures -> cont -> option captures)
  (k : cont) (fuel : nat) (pos : nat) (s : pystr) (c : captures)
  {struct fuel} : option captures :=
  match fuel with
  | O => k pos s c
  | S fuel' =>
      match body pos s c
              (fun pos' s' c' =>
                 if (length s' <? length s)%nat
                 then rep_loop body k fuel' pos' s' c' else None) with
      | Some m => Some m
      | None => k pos s c
      end
  end.

Fixpoint run (r : regex) (pos : nat) (s : pystr) (c : captures) (k : cont)
  {struct r} : option captures :=
  match r with
  | Eps => k pos s c
  | Lit a =>
      match s with
      | x :: s' => if x =? a then k (S pos) s' c else None
      | [] => None
      end
  | Dot =>
      match s with
      | x :: s' => if x =? 10 then None else k (S pos) s' c
      | [] => None
      end
  | Digit =>
      match s with
      | x :: s' => if chr_isdecimal x then k (S pos) s' c else None
      | [] => None
      end
  | Set_ rs =>
      match s with
      | x :: s' => if in_ranges x rs then k (S pos) s' c else None
      | [] => None
      end
  | Cat r1 r2 => run r1 pos s c (fun pos' s' c' => run r2 pos' s' c' k)
  | Or r1 r2 =>
      match run r1 pos s c k with
      | Some m => Some m
      | None => run r2 pos s c k
      end
  | Rep0 r1 => rep_loop (run r1) k (length s) pos s c
  | Group n r1 =>
      run r1 pos s c
          (fun pos' s' c' =>
             k pos' s' (set_capture n (firstn (pos' - pos) s) c'))
  | Bol => if Nat.eqb pos 0 then k pos s c else None
  | Eol =>
      match s with
      | [] => k pos s c
      | [x] => if x =? 10 then k pos s c else None
      | _ => None
      end
  end.

(** [pattern.match(s)]: a match starts at index 0 and need not reach the
    end of [s]. *)
Definition re_match (r : regex) (s : pystr) : option captures :=
  run r 0%nat s no_captures (fun _ _ c => Some c).

(** [match.groups()] of a pattern with five groups. *)
Definition groups5 (c : captures) :=
  (c 1%nat, c 2%nat, c 3%nat, c 4%nat, c 5%nat).

(** ** The source *)

(** [_SEMVER_PATTERN]: the three raw string literals of the source,
    joined.  A raw literal keeps each backslash, and so does a string
    here. *)
Definition _SEMVER_PATTERN : pystr :=
  lit "^(0|[1-9]\\d*)\\.(0|[1-9]\\d*)\\.(0|[1-9]\\d*)"
  ++ lit "(?:-([0-9A-Za-z-]+(?:\\.[0-9A-Za-z-]+)*))?"
  ++ lit "(?:\\+([0-9A-Za-z-]+(?:\\.[0-9A-Za-z-]+)*))?$".

(** [_SEMVER_RE = re.compile(_SEMVER_PATTERN)] *)
Definition _SEMVER_RE : regex :=
  Eval vm_compute in
    match re_compile _SEMVER_PATTERN with
    | Some r => r
    | None => Bol
    end.

(** How the text reads, part by part ([semver_re_shape] below): each
    doubled backslash is an escaped backslash, so the [d], the [.] and
    the [+] after it are a plain [d], the any-character dot and the
    quantifier. *)
Definition numeric_part (n : nat) : regex :=
  Group n (Or (Lit 48)
              (Cat (Set_ [(49, 57)]) (Cat (Lit 92) (Rep0 (Lit 100))))).

Definition ident_chars : list (Z * Z) :=
  [(48, 57); (65, 90); (97, 122); (45, 45)].

Definition identifiers : regex :=
  Cat (Rep1 (Set_ ident_chars))
      (Rep0 (Cat (Lit 92) (Cat Dot (Rep1 (Set_ ident_chars))))).

Definition semver_shape : regex :=
  Cat Bol
  (Cat (numeric_part 1)
  (Cat (Lit 92) (Cat Dot
  (Cat (numeric_part 2)
  (Cat (Lit 92) (Cat Dot
  (Cat (numeric_part 3)
  (Cat (Maybe (Cat (Lit 45) (Group 4 identifiers)))
  (Cat (Maybe (Cat (Rep1 (Lit 92)) (Group 5 identifiers)))
       Eol))))))))).

Module BumpPart.
Inductive t : Type := major | minor | patch.
End BumpPart.

Module CompareOp.
Inductive t : Type := lt | lte | eq | gte | gt.

(** [op.value] *)
Definition value (op : t) : pystr :=
  match op with
  | lt => lit "lt"
  | lte => lit "lte"
  | eq => lit "eq"
  | gte => lit "gte"
  | gt => lit "gt"
  end.
End CompareOp.

Record BumpVersionArgs : Type := {
  version : pystr;
  part : BumpPart.t;
  dry_run : bool;
  allow_v_prefix : bool;
  keep_prerelease : bool
}.

Record CompareVersionsArgs : Type := {
  left : pystr;
  right : pystr;
  op : CompareOp.t;
  cmp_allow_v_prefix : bool
}.

Definition invalid_semver_msg : pystr :=
  lit "version must be a valid SemVer 2.0.0 string".

(** The three lines every entry point starts with:
    [candidate = value]; if [allow_v_prefix] and
    [candidate.startswith("v")] then [candidate = candidate[1:]]. *)
Definition candidate_of (value : pystr) (allow_v_prefix : bool) : pystr :=
  if allow_v_prefix && startswith_v value then drop1 value else value.

(** [allow_v_prefix = True], overridden by [info.data["allow_v_prefix"]]
    when the validation info holds that entry ([entry] is [None] when it
    does not). *)
Definition info_allow_v_prefix (entry : option bool) : bool :=
  match entry with
  | Some b => b
  | None => true
  end.

(** [BumpVersionArgs._validate_version] *)
Definition _validate_version (value : pystr) (info : option bool)
  : result pystr :=
  let allow_v_prefix := info_allow_v_prefix info in
  let candidate := candidate_of value allow_v_prefix in
  match re_match _SEMVER_RE candidate with
  | None => Raise (ValueError invalid_semver_msg)
  | Some _ => Ok value
  end.

(** [CompareVersionsArgs._validate_semver] *)
Definition _validate_semver (value : pystr) (info : option bool)
  : result pystr :=
  let allow_v_prefix := info_allow_v_prefix info in
  let candidate := candidate_of value allow_v_prefix in
  match re_match _SEMVER_RE candidate with
  | None => Raise (ValueError invalid_semver_msg)
  | Some _ => Ok value
  end.

(** The five-tuple [_parse_semver] returns. *)
Definition Version : Type :=
  (Z * Z * Z * option (list pystr) * option pystr)%type.

(** Truth value of an optional string or list: [None] and the empty one
    are false. *)
Definition truthy {A : Type} (o : option (list A)) : bool :=
  match o with
  | Some (_ :: _) => true
  | _ => false
  end.

Definition _parse_semver (value : pystr) (allow_v_prefix : bool)
  : result Version :=
  let candidate := candidate_of value allow_v_prefix in
  match re_match _SEMVER_RE candidate with
  | None => Raise (ValueError invalid_semver_msg)
  | Some m =>
      match groups5 m with
      | (Some major_s, Some minor_s, Some patch_s, prerelease_s, build_s) =>
          let prerelease :=
            if truthy prerelease_s
            then option_map (split 46) prerelease_s else None in
          major_n <- py_int major_s ;;
          minor_n <- py_int minor_s ;;
          patch_n <- py_int patch_s ;;
          Ok (major_n, minor_n, patch_n, prerelease, build_s)
      | _ =>
          (* groups 1 to 3 take part in every match *)
          Raise (IntValueError [])
      end
  end.

Definition _format_semver (major_n minor_n patch_n : Z)
  (prerelease : option (list pystr)) (build : option pystr) : pystr :=
  let base :=
    str_of_int major_n ++ lit "." ++ str_of_int minor_n ++ lit "."
    ++ str_of_int patch_n in
  let base :=
    match prerelease with
    | Some (p :: ps) => base ++ lit "-" ++ join (lit ".") (p :: ps)
    | _ => base
    end in
  let base :=
    match build with
    | Some (b :: bs) => base ++ lit "+" ++ (b :: bs)
    | _ => base
    end in
  base.

Definition _cmp_ident (a b : pystr) : result Z :=
  let a_is_num := isdigit a in
  let b_is_num := isdigit b in
  if a_is_num && b_is_num then
    ai <- py_int a ;;
    bi <- py_int b ;;
    Ok (if ai <? bi then -1 else if ai >? bi then 1 else 0)
  else if a_is_num && negb b_is_num then Ok (-1)
  else if negb a_is_num && b_is_num then Ok 1
  else Ok (if str_ltb a b then -1 else if str_ltb b a then 1 else 0).

(** [!=] and [<] on triples of integers. *)
Definition triple_neqb (x y : Z * Z * Z) : bool :=
  let '(x1, x2, x3) := x in
  let '(y1, y2, y3) := y in
  negb ((x1 =? y1) && (x2 =? y2) && (x3 =? y3)).

Definition triple_ltb (x y : Z * Z * Z) : bool :=
  let '(x1, x2, x3) := x in
  let '(y1, y2, y3) := y in
  if negb (x1 =? y1) then x1 <? y1
  else if negb (x2 =? y2) then x2 <? y2
  else x3 <? y3.

(** The loop [for a, b in zip(l_pre, r_pre)]: [Some c] when it returns
    [c], [None] when it runs to its end. *)
Fixpoint first_difference (pairs : list (pystr * pystr))
  : result (option Z) :=
  match pairs with
  | [] => Ok None
  | (a, b) :: pairs' =>
      c <- _cmp_ident a b ;;
      if negb (c =? 0) then Ok (Some c) else first_difference pairs'
  end.

(** [_compare_semver] from the two parsed tuples on. *)
Definition compare_parsed (l r : Version) : result Z :=
  let '(l_major, l_minor, l_patch, l_pre, _l_build) := l in
  let '(r_major, r_minor, r_patch, r_pre, _r_build) := r in
  if triple_neqb (l_major, l_minor, l_patch) (r_major, r_minor, r_patch)
  then Ok (if triple_ltb (l_major, l_minor, l_patch)
                         (r_major, r_minor, r_patch)
           then -1 else 1)
  else
    match l_pre, r_pre with
    | None, None => Ok 0
    | None, Some _ => Ok 1
    | Some _, None => Ok (-1)
    | Some l_pre, Some r_pre =>
        d <- first_difference (combine l_pre r_pre) ;;
        match d with
        | Some c => Ok c
        | None =>
            if Nat.eqb (length l_pre) (length r_pre) then Ok 0
            else Ok (if (length l_pre <? length r_pre)%nat then -1 else 1)
        end
    end.

Definition _compare_semver (left_s right_s : pystr) (allow_v_prefix : bool)
  : result Z :=
  l <- _parse_semver left_s allow_v_prefix ;;
  r <- _parse_semver right_s allow_v_prefix ;;
  compare_parsed l r.

(** The dictionary [bump_version] returns. *)
Record BumpResult : Type := {
  old : pystr;
  new : pystr;
  dryRun : bool
}.

(** The bump itself: the [if]/[elif]/[else] on [args.part] and the
    clearing of prerelease and build. *)
Definition bump_parsed (v : Version) (p : BumpPart.t) (keep : bool)
  : Version :=
  let '(major_n, minor_n, patch_n, prerelease, build) := v in
  let '(major_n, minor_n, patch_n) :=
    match p with
    | BumpPart.major => (major_n + 1, 0, 0)
    | BumpPart.minor => (major_n, minor_n + 1, 0)
    | BumpPart.patch => (major_n, minor_n, patch_n + 1)
    end in
  if negb keep then (major_n, minor_n, patch_n, None, None)
  else (major_n, minor_n, patch_n, prerelease, build).

Definition format_version (v : Version) : pystr :=
  let '(major_n, minor_n, patch_n, prerelease, build) := v in
  _format_semver major_n minor_n patch_n prerelease build.

Definition bump_version (args : BumpVersionArgs) : result BumpResult :=
  v <- _parse_semver (version args) (allow_v_prefix args) ;;
  let new_version :=
    format_version (bump_parsed v (part args) (keep_prerelease args)) in
  Ok {| old := version args; new := new_version; dryRun := dry_run args |}.

(** The dictionary [compare_versions] returns. *)
Record CompareResult : Type := {
  res_left : pystr;
  res_right : pystr;
  res_op : pystr;
  res_result : bool
}.

(** The table [op_to_bool], looked up at [op]. *)
Definition op_to_bool (cmp_value : Z) (o : CompareOp.t) : bool :=
  match o with
  | CompareOp.lt => cmp_value <? 0
  | CompareOp.lte => cmp_value <=? 0
  | CompareOp.eq => cmp_value =? 0
  | CompareOp.gte => cmp_value >=? 0
  | CompareOp.gt => cmp_value >? 0
  end.

Definition compare_versions (args : CompareVersionsArgs)
  : result CompareResult :=
  cmp_value <-
    _compare_semver (left args) (right args) (cmp_allow_v_prefix args) ;;
  Ok {| res_left := left args;
        res_right := right args;
        res_op := CompareOp.value (op args);
        res_result := op_to_bool cmp_value (op args) |}.

(** ** [repo_rg.search]: merging the two file lists

    The loop that builds [merged_files] from [content_files] and
    [name_files]: a path not yet seen is appended and recorded, and the
    loop stops as soon as [merged_files] has [max_results] entries.
    The test on the length is made after each path, appended or not. *)

Definition str_eq_dec : forall a b : pystr, {a = b} + {a <> b} :=
  list_eq_dec Z.eq_dec.

Fixpoint merge_loop (paths seen merged_files : list pystr) (max_results : Z)
  : list pystr :=
  match paths with
  | [] => merged_files
  | pth :: paths' =>
      let (merged_files, seen) :=
        if in_dec str_eq_dec pth seen then (merged_files, seen)
        else (merged_files ++ [pth], pth :: seen) in
      if Z.of_nat (length merged_files) >=? max_results then merged_files
      else merge_loop paths' seen merged_files max_results
  end.

Definition merge_files (content_files name_files : list pystr)
  (max_results : Z) : list pystr :=
  merge_loop (content_files ++ name_files) [] [] max_results.

(** ** Notions used to state the properties *)

(** [lang r pos w rest c c']: read from index [pos], with [rest] left
    after it, the word [w] is one way for [r] to match, taking the
    captures from [c] to [c']. *)
Inductive lang : regex -> nat -> pystr -> pystr -> captures -> captures
                 -> Prop :=
| lang_Eps pos rest c : lang Eps pos [] rest c c
| lang_Lit a pos rest c : lang (Lit a) pos [a] rest c c
| lang_Dot x pos rest c : x <> 10 -> lang Dot pos [x] rest c c
| lang_Digit x pos rest c :
    chr_isdecimal x = true -> lang Digit pos [x] rest c c
| lang_Set rs x pos rest c :
    in_ranges x rs = true -> lang (Set_ rs) pos [x] rest c c
| lang_Cat r1 r2 pos w1 w2 rest c c1 c2 :
    lang r1 pos w1 (w2 ++ rest) c c1 ->
    lang r2 (pos + length w1)%nat w2 rest c1 c2 ->
    lang (Cat r1 r2) pos (w1 ++ w2) rest c c2
| lang_Or_l r1 r2 pos w rest c c' :
    lang r1 pos w rest c c' -> lang (Or r1 r2) pos w rest c c'
| lang_Or_r r1 r2 pos w rest c c' :
    lang r2 pos w rest c c' -> lang (Or r1 r2) pos w rest c c'
| lang_Rep0_done r pos rest c : lang (Rep0 r) pos [] rest c c
| lang_Rep0_more r pos w1 w2 rest c c1 c2 :
    lang r pos w1 (w2 ++ rest) c c1 ->
    lang (Rep0 r) (pos + length w1)%nat w2 rest c1 c2 ->
    lang (Rep0 r) pos (w1 ++ w2) rest c c2
| lang_Group n r pos w rest c c' :
    lang r pos w rest c c' ->
    lang (Group n r) pos w rest c (set_capture n w c')
| lang_Bol rest c : lang Bol 0%nat [] rest c c
| lang_Eol pos rest c :
    rest = [] \/ rest = [10] -> lang Eol pos [] rest c c.

(** A pattern without capturing groups. *)
Fixpoint groupless (r : regex) : bool :=
  match r with
  | Cat r1 r2 | Or r1 r2 => groupless r1 && groupless r2
  | Rep0 r1 => groupless r1
  | Group _ _ => false
  | _ => true
  end.

(** What a numeric group of [_SEMVER_RE] can capture: [0], or a digit
    from 1 to 9 with a backslash after it (and then any run of [d]). *)
Definition numeric_capture (g : pystr) : Prop :=
  g = [48] \/ exists d ds, g = d :: 92 :: ds.

Definition ident_char (x : Z) : bool := in_ranges x ident_chars.

(** Every character of [w] is one of [[0-9A-Za-z-]], or a backslash, or
    comes right after a backslash ([prev] is the character before [w]).
    This is what groups 4 and 5 of [_SEMVER_RE] can capture. *)
Fixpoint guarded (prev : Z) (w : pystr) : Prop :=
  match w with
  | [] => True
  | x :: w' => (ident_char x = true \/ x = 92 \/ prev = 92) /\ guarded x w'
  end.

Definition escaped_idents (w : pystr) : Prop := forall prev, guarded prev w.

Definition ascii_digit (x : Z) : bool := (48 <=? x) && (x <=? 57).

Definition is_ascii (x : Z) : bool := (0 <=? x) && (x <? 128).

(** An identifier [int] can read: if [isdigit] holds, its characters
    are the ASCII digits. *)
Definition plain_ident (a : pystr) : Prop :=
  isdigit a = true -> forallb ascii_digit a = true.

Definition plain_pre (p : option (list pystr)) : Prop :=
  match p with
  | Some ids => Forall plain_ident ids
  | None => True
  end.

(** The same as a test. *)
Definition plain_identb (a : pystr) : bool :=
  negb (isdigit a) || forallb ascii_digit a.

(** The text of the optional parts in a subject [_SEMVER_RE] matches. *)
Definition prerelease_text (g : option pystr) : pystr :=
  match g with
  | Some w => 45 :: w
  | None => []
  end.

(** An identifier without backslash is made of identifier characters. *)
Definition backslash_free_is_ident (p : pystr) : Prop :=
  ~ In 92 p -> forallb ident_char p = true.

(** What it means for a matcher [body] to find only words of [r]. *)
Definition sound_body (r : regex)
  (body : nat -> pystr -> captures -> cont -> option captures) : Prop :=
  forall pos s c k m,
    body pos s c k = Some m ->
    exists w s' c',
      s = w ++ s' /\ lang r pos w s' c c'
      /\ k (pos + length w)%nat s' c' = Some m.

(** *** The strings the parser accepts *)

(** What a numeric group captures, with the range of its first digit. *)
Definition numeric_text (g : pystr) : Prop :=
  g = [48] \/ exists d ds, g = d :: 92 :: ds /\ 49 <= d <= 57.

(** One or more identifier characters. *)
Definition ident_run (w : pystr) : Prop :=
  w <> [] /\ forallb ident_char w = true.

(** What an identifier group captures: a run of identifier characters,
    and any number of further runs, each led in by a backslash and one
    character that is not a newline. *)
Inductive ident_text : pystr -> Prop :=
| ident_text_run w : ident_run w -> ident_text w
| ident_text_more g z w :
    ident_text g -> z <> 10 -> ident_run w ->
    ident_text (g ++ 92 :: z :: w).

(** The optional prerelease and build parts of an accepted string. *)
Definition prerelease_part (t : pystr) : Prop :=
  t = [] \/ exists g, t = 45 :: g /\ ident_text g.

Definition build_part (t : pystr) : Prop :=
  t = [] \/ exists n g, t = repeat 92 (S n) ++ g /\ ident_text g.

(** [0], backslash, a character, [0], backslash, a character, [0], then
    the optional parts and an optional final newline. *)
Definition accepted (s : pystr) : Prop :=
  exists x y pre_t build_t nl,
    s = 48 :: 92 :: x :: 48 :: 92 :: y :: 48 :: pre_t ++ build_t ++ nl
    /\ x <> 10 /\ y <> 10
    /\ prerelease_part pre_t /\ build_part build_t
    /\ (nl = [] \/ nl = [10]).

(** The paths of [l] not in [seen], each at its first occurrence. *)
Fixpoint first_occurrences (seen l : list pystr) : list pystr :=
  match l with
  | [] => []
  | a :: l' =>
      if in_dec str_eq_dec a seen then first_occurrences seen l'
      else a :: first_occurrences (a :: seen) l'
  end.

(** *** Precedence, as the specification words it *)

Definition sign (c : comparison) : Z :=
  match c with
  | Lt => -1
  | Eq => 0
  | Gt => 1
  end.

(** Non-empty and ASCII digits only. *)
Definition numeric (a : pystr) : bool :=
  match a with
  | [] => false
  | _ => forallb ascii_digit a
  end.

(** The integer a numeric identifier denotes. *)
Definition ident_value (a : pystr) : Z :=
  fold_left (fun acc x => 10 * acc + (x - 48)) a 0.

(** Two identifiers at the same position. *)
Definition ident_compare (a b : pystr) : comparison :=
  match numeric a, numeric b with
  | true, true => ident_value a ?= ident_value b
  | true, false => Lt
  | false, true => Gt
  | false, false => str_compare a b
  end.

(** Identifier sequences: the first unequal position decides, and a
    strict prefix is lower. *)
Fixpoint idents_compare (l r : list pystr) : comparison :=
  match l, r with
  | [], [] => Eq
  | [], _ :: _ => Lt
  | _ :: _, [] => Gt
  | a :: l', b :: r' =>
      match ident_compare a b with
      | Eq => idents_compare l' r'
      | c => c
      end
  end.

(** Numeric order of release triples. *)
Definition triple_compare (x y : Z * Z * Z) : comparison :=
  let '(x1, x2, x3) := x in
  let '(y1, y2, y3) := y in
  match x1 ?= y1 with
  | Eq => match x2 ?= y2 with
          | Eq => x3 ?= y3
          | c => c
          end
  | c => c
  end.

(** A version without prerelease outranks one with. *)
Definition pre_compare (l r : option (list pystr)) : comparison :=
  match l, r with
  | None, None => Eq
  | None, Some _ => Gt
  | Some _, None => Lt
  | Some l', Some r' => idents_compare l' r'
  end.

Definition release (v : Version) : Z * Z * Z := fst (fst v).
Definition prerelease (v : Version) : option (list pystr) := snd (fst v).
Definition build (v : Version) : option pystr := snd v.

Definition precedence (l r : Version) : comparison :=
  match triple_compare (release l) (release r) with
  | Eq => pre_compare (prerelease l) (prerelease r)
  | c => c
  end.

(** *** When the comparator returns

    [int] refuses a string of more than [int_max_str_digits] digits, so
    the walk over two prereleases raises when it reaches a position
    where both identifiers pass [isdigit] and one of them is longer
    than that. *)

Definition within_limit (a : pystr) : bool :=
  Z.of_nat (length a) <=? int_max_str_digits.

(** An identifier [int] can be asked to convert: if [isdigit] holds for
    it, it is within the limit. *)
Definition convertible (a : pystr) : bool :=
  negb (isdigit a) || within_limit a.

Definition convertible_pre (p : option (list pystr)) : bool :=
  match p with
  | Some ids => forallb convertible ids
  | None => true
  end.

(** [_cmp_ident a b] makes no conversion, or two that succeed. *)
Definition cmp_returns (a b : pystr) : bool :=
  negb (isdigit a && isdigit b) || (within_limit a && within_limit b).

(** The same for every position the walk visits: up to and including
    the first one where the identifiers differ. *)
Fixpoint walk_returns (l r : list pystr) : bool :=
  match l, r with
  | a :: l', b :: r' =>
      cmp_returns a b
      && match ident_compare a b with
         | Eq => walk_returns l' r'
         | _ => true
         end
  | _, _ => true
  end.

Definition compare_returns (l r : Version) : bool :=
  match triple_compare (release l) (release r) with
  | Eq =>
      match prerelease l, prerelease r with
      | Some lp, Some rp => walk_returns lp rp
      | _, _ => true
      end
  | _ => true
  end.

(** Lexicographic order of pairs. *)
Definition lex {A B : Type} (f : A -> A -> comparison)
  (g : B -> B -> comparison) (x y : A * B) : comparison :=
  match f (fst x) (fst y) with
  | Eq => g (snd x) (snd y)
  | c => c
  end.

(** Exactly one of three booleans holds. *)
Definition exactly_one (b1 b2 b3 : bool) : Prop :=
  (b1 = true /\ b2 = false /\ b3 = false)
  \/ (b1 = false /\ b2 = true /\ b3 = false)
  \/ (b1 = false /\ b2 = false /\ b3 = true).

(** *** What an exception carries *)

Fixpoint prefixb (p s : pystr) : bool :=
  match p, s with
  | [], _ => true
  | _ :: _, [] => false
  | x :: p', y :: s' => (x =? y) && prefixb p' s'
  end.

(** [needle in hay] *)
Fixpoint occurs (needle hay : pystr) : bool :=
  prefixb needle hay
  || match hay with
     | [] => false
     | _ :: hay' => occurs needle hay'
     end.

(** The argument of the exception. *)
Definition exn_text (e : exn) : pystr :=
  match e with
  | ValueError msg => msg
  | IntValueError literal => literal
  | IntLimitError digits =>
      lit "Exceeds the limit (4300 digits) for integer string conversion: "
      ++ lit "value has " ++ str_of_int digits
      ++ lit " digits; use sys.set_int_max_str_digits() to increase the limit"
  end.

(** The exception carries the raw string [raw]. *)
Definition carries (e : exn) (raw : pystr) : Prop :=
  occurs raw (exn_text e) = true.

(** A three-way comparison that orders its domain: swapping the
    arguments flips the result, equivalent elements compare alike, and
    "lower" is transitive. *)
Record ordering {A : Type} (f : A -> A -> comparison) : Prop := {
  ord_flip : forall x y, f y x = CompOpp (f x y);
  ord_equiv : forall x y z, f x y = Eq -> f x z = f y z;
  ord_trans : forall x y z, f x y = Lt -> f y z = Lt -> f x z = Lt
}.

(** Inversion of a [lang] fact. *)
Ltac inv H := inversion H; subst; clear H.

(** One inversion step on a pattern whose head is not a repetition. *)
Ltac lang_step :=
  match goal with
  | H : lang Eps _ _ _ _ _ |- _ => inv H
  | H : lang (Lit _) _ _ _ _ _ |- _ => inv H
  | H : lang Dot _ _ _ _ _ |- _ => inv H
  | H : lang (Set_ _) _ _ _ _ _ |- _ => inv H
  | H : lang (Cat _ _) _ _ _ _ _ |- _ => inv H
  | H : lang (Or _ _) _ _ _ _ _ |- _ => inv H
  | H : lang (Group _ _) _ _ _ _ _ |- _ => inv H
  | H : lang Bol _ _ _ _ _ |- _ => inv H
  | H : lang Eol _ _ _ _ _ |- _ => inv H
  end.

(** Decide one component of a triple comparison. *)
Ltac compare_component x y :=
  destruct (Z.compare_spec x y);
  [ subst; rewrite ?Z.eqb_refl
  | replace (x =? y) with false by (symmetry; apply Z.eqb_neq; lia)
  | replace (x =? y) with false by (symmetry; apply Z.eqb_neq; lia) ];
  cbn [negb andb]; try reflexivity.

(** ** The pattern *)

Lemma semver_pattern_compiles : re_compile _SEMVER_PATTERN = Some _SEMVER_RE.
Proof. vm_compute. reflexivity. Qed.

Lemma semver_re_shape : _SEMVER_RE = semver_shape.
Proof. reflexivity. Qed.

(** What CPython's [re] gives for the same pattern on these subjects. *)
Lemma re_match_examples :
  option_map groups5 (re_match _SEMVER_RE (lit "1.2.3")) = None
  /\ option_map groups5 (re_match _SEMVER_RE (lit "0\.0\.0"))
     = Some (Some (lit "0"), Some (lit "0"), Some (lit "0"), None, None)
  /\ option_map groups5 (re_match _SEMVER_RE (lit "0\x0\y0"))
     = Some (Some (lit "0"), Some (lit "0"), Some (lit "0"), None, None)
  /\ option_map groups5 (re_match _SEMVER_RE (lit "1\dd\.2\\.0"))
     = Some (Some (lit "1\dd"), Some (lit "2" ++ [92]), Some (lit "0"),
             None, None)
  /\ option_map groups5 (re_match _SEMVER_RE (lit "0\.0\.0-a\b"))
     = Some (Some (lit "0"), Some (lit "0"), Some (lit "0"),
             Some (lit "a"), Some (lit "b"))
  /\ option_map groups5 (re_match _SEMVER_RE (lit "0\.0\.0-a\bc"))
     = Some (Some (lit "0"), Some (lit "0"), Some (lit "0"),
             Some (lit "a\bc"), None)
  /\ option_map groups5 (re_match _SEMVER_RE (lit "0\.0\.0-rc\.1\\b7"))
     = Some (Some (lit "0"), Some (lit "0"), Some (lit "0"),
             Some (lit "rc\.1\\b7"), None)
  /\ option_map groups5 (re_match _SEMVER_RE (lit "0\.0\.0" ++ [10]))
     = Some (Some (lit "0"), Some (lit "0"), Some (lit "0"), None, None)
  /\ option_map groups5 (re_match _SEMVER_RE (lit "0\.0\.0-")) = None.
Proof. repeat split; vm_compute; reflexivity. Qed.

(** The same text with single backslashes reads as the usual grammar
    and matches "1.2.3". *)
Lemma single_backslash_pattern_matches :
  option_map
    (fun r => option_map groups5 (re_match r (lit "1.2.3")))
    (re_compile (lit "^(0|[1-9]\d*)\.(0|[1-9]\d*)\.(0|[1-9]\d*)$"))
  = Some (Some (Some (lit "1"), Some (lit "2"), Some (lit "3"), None, None)).
Proof. vm_compute. reflexivity. Qed.

(** ** The matcher finds only words of the pattern *)

Lemma rep_loop_sound r body k :
  sound_body r body ->
  forall fuel pos s c m,
    rep_loop body k fuel pos s c = Some m ->
    exists w s' c',
      s = w ++ s' /\ lang (Rep0 r) pos w s' c c'
      /\ k (pos + length w)%nat s' c' = Some m.
Proof.
  intros Hbody fuel.
  induction fuel as [|fuel IH]; intros pos s c m H; simpl in H.
  - exists [], s, c. simpl. rewrite Nat.add_0_r.
    repeat split; [constructor | exact H].
  - destruct (body pos s c _) as [m'|] eqn:Hb.
    + injection H as ->.
      apply Hbody in Hb. destruct Hb as (w1 & s1 & c1 & -> & L1 & Hk).
      destruct (length s1 <? length (w1 ++ s1))%nat; [|discriminate].
      apply IH in Hk. destruct Hk as (w2 & s2 & c2 & -> & L2 & Hk).
      exists (w1 ++ w2), s2, c2.
      rewrite <- app_assoc, length_app, Nat.add_assoc.
      repeat split; [econstructor; eassumption | exact Hk].
    + exists [], s, c. simpl. rewrite Nat.add_0_r.
      repeat split; [constructor | exact H].
Qed.

Lemma run_sound r : sound_body r (run r).
Proof.
  induction r
    as [|a| | |rs|r1 IHr1 r2 IHr2|r1 IHr1 r2 IHr2|r1 IHr1|n r1 IHr1| |];
    intros pos s c k m H; simpl in H.
  - exists [], s, c. simpl. rewrite Nat.add_0_r.
    repeat split; [constructor | exact H].
  - destruct s as [|x s']; [discriminate|].
    destruct (x =? a) eqn:E; [|discriminate]. apply Z.eqb_eq in E. subst x.
    exists [a], s', c. simpl. rewrite Nat.add_1_r.
    repeat split; [constructor | exact H].
  - destruct s as [|x s']; [discriminate|].
    destruct (x =? 10) eqn:E; [discriminate|]. apply Z.eqb_neq in E.
    exists [x], s', c. simpl. rewrite Nat.add_1_r.
    repeat split; [constructor; exact E | exact H].
  - destruct s as [|x s']; [discriminate|].
    destruct (chr_isdecimal x) eqn:E; [|discriminate].
    exists [x], s', c. simpl. rewrite Nat.add_1_r.
    repeat split; [constructor; exact E | exact H].
  - destruct s as [|x s']; [discriminate|].
    destruct (in_ranges x rs) eqn:E; [|discriminate].
    exists [x], s', c. simpl. rewrite Nat.add_1_r.
    repeat split; [constructor; exact E | exact H].
  - apply IHr1 in H. destruct H as (w1 & s1 & c1 & -> & L1 & H).
    apply IHr2 in H. destruct H as (w2 & s2 & c2 & -> & L2 & H).
    exists (w1 ++ w2), s2, c2.
    rewrite <- app_assoc, length_app, Nat.add_assoc.
    repeat split; [econstructor; eassumption | exact H].
  - destruct (run r1 pos s c k) as [m'|] eqn:E.
    + injection H as ->. apply IHr1 in E.
      destruct E as (w & s' & c' & -> & L & Hk).
      exists w, s', c'. repeat split; [apply lang_Or_l; exact L | exact Hk].
    + apply IHr2 in H. destruct H as (w & s' & c' & -> & L & Hk).
      exists w, s', c'. repeat split; [apply lang_Or_r; exact L | exact Hk].
  - eapply rep_loop_sound; eassumption.
  - apply IHr1 in H. destruct H as (w & s' & c' & -> & L & Hk).
    exists w, s', (set_capture n w c').
    repeat split; [constructor; exact L|].
    replace (pos + length w - pos)%nat with (length w) in Hk by lia.
    rewrite firstn_app, Nat.sub_diag, firstn_all in Hk. simpl in Hk.
    rewrite app_nil_r in Hk. exact Hk.
  - destruct (Nat.eqb pos 0) eqn:E; [|discriminate].
    apply Nat.eqb_eq in E. subst pos.
    exists [], s, c. repeat split; [constructor | exact H].
  - exists [], s, c. simpl. rewrite Nat.add_0_r.
    destruct s as [|x [|y s'']]; try discriminate.
    + repeat split; [constructor; auto | exact H].
    + destruct (x =? 10) eqn:E; [|discriminate]. apply Z.eqb_eq in E.
      subst x. repeat split; [constructor; auto | exact H].
Qed.

Lemma lang_groupless r pos w rest c c' :
  lang r pos w rest c c' -> groupless r = true -> c' = c.
Proof.
  induction 1; simpl; intros G; try reflexivity; try discriminate.
  - apply andb_true_iff in G. destruct G as [G1 G2].
    rewrite (IHlang2 G2). apply IHlang1, G1.
  - apply andb_true_iff in G. apply IHlang, G.
  - apply andb_true_iff in G. apply IHlang, G.
  - rewrite (IHlang2 G). apply IHlang1, G.
Qed.

Lemma lang_rep_set rs pos w rest c c' :
  lang (Rep0 (Set_ rs)) pos w rest c c' ->
  Forall (fun x => in_ranges x rs = true) w.
Proof.
  remember (Rep0 (Set_ rs)) as r eqn:Er. intros H.
  induction H; try discriminate; injection Er as ->.
  - constructor.
  - inv H. simpl. constructor; [assumption | apply IHlang2; reflexivity].
Qed.

Lemma guarded_ident_word w :
  Forall (fun x => ident_char x = true) w -> escaped_idents w.
Proof.
  induction 1 as [|x w Hx _ IH]; intros prev; simpl; auto.
Qed.

Lemma guarded_app w2 :
  escaped_idents w2 ->
  forall w1 prev, guarded prev w1 -> guarded prev (w1 ++ w2).
Proof.
  intros H2 w1.
  induction w1 as [|x w1 IH]; intros prev H1; simpl.
  - apply H2.
  - destruct H1 as [Hx Hw]. split; [exact Hx | apply IH, Hw].
Qed.

Lemma escaped_idents_app w1 w2 :
  escaped_idents w1 -> escaped_idents w2 -> escaped_idents (w1 ++ w2).
Proof.
  intros H1 H2 prev. apply guarded_app; [exact H2 | apply H1].
Qed.

Lemma lang_ident_run pos w rest c c' :
  lang (Rep1 (Set_ ident_chars)) pos w rest c c' ->
  Forall (fun x => ident_char x = true) w /\ w <> [].
Proof.
  unfold Rep1. intros H. do 2 lang_step.
  match goal with
  | H : lang (Rep0 _) _ _ _ _ _ |- _ => apply lang_rep_set in H
  end.
  split; [constructor; assumption | discriminate].
Qed.

Lemma lang_escaped_chunks pos w rest c c' :
  lang (Rep0 (Cat (Lit 92) (Cat Dot (Rep1 (Set_ ident_chars)))))
       pos w rest c c' ->
  escaped_idents w.
Proof.
  remember (Rep0 (Cat (Lit 92) (Cat Dot (Rep1 (Set_ ident_chars)))))
    as r eqn:Er.
  intros H. induction H; try discriminate; injection Er as ->.
  - intros prev. exact I.
  - apply escaped_idents_app; [|apply IHlang2; reflexivity].
    clear IHlang1 IHlang2 H0. do 4 lang_step.
    match goal with
    | H : lang (Rep1 _) _ _ _ _ _ |- _ =>
        apply lang_ident_run in H; destruct H as [Hw _]
    end.
    apply guarded_ident_word in Hw.
    intros prev. simpl. split; [auto|]. split; [auto|]. apply Hw.
Qed.

Lemma lang_identifiers pos w rest c c' :
  lang identifiers pos w rest c c' ->
  escaped_idents w /\ w <> [] /\ c' = c.
Proof.
  unfold identifiers. intros H.
  assert (Hc : c' = c) by (eapply lang_groupless; [exact H | reflexivity]).
  lang_step.
  match goal with
  | H : lang (Rep1 _) _ _ _ _ _ |- _ =>
      apply lang_ident_run in H; destruct H as [H1 Hne]
  end.
  match goal with
  | H : lang (Rep0 _) _ _ _ _ _ |- _ => apply lang_escaped_chunks in H
  end.
  repeat split.
  - apply escaped_idents_app; [apply guarded_ident_word, H1 | assumption].
  - destruct w1; [contradiction Hne; reflexivity | discriminate].
Qed.

Lemma lang_numeric_part n pos w rest c c' :
  lang (numeric_part n) pos w rest c c' ->
  numeric_capture w /\ c' = set_capture n w c.
Proof.
  unfold numeric_part. intros H. lang_step.
  match goal with
  | H : lang (Or _ _) _ _ _ _ ?c1 |- _ =>
      assert (c1 = c) by (eapply lang_groupless; [exact H | reflexivity]);
      subst c1
  end.
  split; [|reflexivity].
  lang_step.
  - lang_step. left. reflexivity.
  - do 4 lang_step. right. simpl. eauto.
Qed.

Lemma lang_optional_prerelease pos w rest c c' :
  lang (Maybe (Cat (Lit 45) (Group 4%nat identifiers))) pos w rest c c' ->
  exists pre,
    w = prerelease_text pre
    /\ c' = match pre with Some g => set_capture 4%nat g c | None => c end
    /\ forall g, pre = Some g -> escaped_idents g /\ g <> [].
Proof.
  unfold Maybe. intros H. lang_step.
  - do 3 lang_step.
    match goal with
    | H : lang identifiers _ _ _ _ _ |- _ =>
        apply lang_identifiers in H; destruct H as (Hg & Hne & ->)
    end.
    eexists (Some _). simpl.
    split; [reflexivity|]. split; [reflexivity|].
    intros g [= <-]. split; assumption.
  - lang_step. exists None. simpl.
    split; [reflexivity|]. split; [reflexivity | discriminate].
Qed.

Lemma lang_optional_build pos w rest c c' :
  lang (Maybe (Cat (Rep1 (Lit 92)) (Group 5%nat identifiers)))
       pos w rest c c' ->
  exists build,
    c' = match build with Some g => set_capture 5%nat g c | None => c end
    /\ forall g, build = Some g -> g <> [].
Proof.
  unfold Maybe. intros H. lang_step.
  - do 2 lang_step.
    match goal with
    | H : lang (Rep1 _) _ _ _ _ ?c1 |- _ =>
        assert (c1 = c) by (eapply lang_groupless; [exact H | reflexivity]);
        subst c1; clear H
    end.
    match goal with
    | H : lang identifiers _ _ _ _ _ |- _ =>
        apply lang_identifiers in H; destruct H as (_ & Hne & ->)
    end.
    eexists (Some _). split; [reflexivity|]. intros g [= <-]. exact Hne.
  - lang_step. exists None. split; [reflexivity | discriminate].
Qed.

(** Every subject [_SEMVER_RE] matches has a backslash and one more
    character after each of the first two numeric parts, and its
    captures are as described above. *)
Lemma semver_match_inv s m :
  re_match _SEMVER_RE s = Some m ->
  exists g1 x1 g2 x2 g3 pre build tail,
    s = g1 ++ 92 :: x1 :: g2 ++ 92 :: x2 :: g3 ++ prerelease_text pre ++ tail
    /\ numeric_capture g1 /\ numeric_capture g2 /\ numeric_capture g3
    /\ groups5 m = (Some g1, Some g2, Some g3, pre, build)
    /\ (forall g, pre = Some g -> escaped_idents g /\ g <> [])
    /\ (forall g, build = Some g -> g <> []).
Proof.
  unfold re_match. rewrite semver_re_shape. intros H.
  apply run_sound in H. destruct H as (w & s' & c' & -> & L & [= <-]).
  unfold semver_shape in L.
  repeat lang_step.
  repeat match goal with
  | H : lang (numeric_part _) _ _ _ _ _ |- _ =>
      apply lang_numeric_part in H; destruct H as [? ->]
  end.
  match goal with
  | H : lang (Maybe (Cat (Lit 45) _)) _ _ _ _ _ |- _ =>
      apply lang_optional_prerelease in H;
      destruct H as (pre & -> & -> & Hpre)
  end.
  match goal with
  | H : lang (Maybe _) _ _ _ _ _ |- _ =>
      apply lang_optional_build in H; destruct H as (build & -> & Hbuild)
  end.
  match goal with
  | |- context [ ?g1 ++ [92] ++ [?x1] ++ ?g2 ++ [92] ++ [?x2] ++ ?g3
                 ++ prerelease_text pre ++ ?t1 ++ [] ] =>
      exists g1, x1, g2, x2, g3, pre, build, (t1 ++ s')
  end.
  split.
  { rewrite app_nil_r. simpl.
    repeat (rewrite <- app_assoc; simpl). reflexivity. }
  repeat (split; [assumption|]).
  split; [destruct pre, build; reflexivity|].
  split; assumption.
Qed.

(** ** Digits *)

Lemma decimal_in_none c zs :
  c < 128 -> forallb (Z.leb 128) zs = true -> decimal_in c zs = None.
Proof.
  intros Hc. induction zs as [|z zs IH]; simpl; intros H; [reflexivity|].
  apply andb_true_iff in H. destruct H as [Hz Hzs]. apply Z.leb_le in Hz.
  destruct (Z.leb_spec z c); [lia|]. simpl. apply IH, Hzs.
Qed.

Lemma in_ranges_none c rs :
  c < 128 -> forallb (fun r => 128 <=? fst r) rs = true ->
  in_ranges c rs = false.
Proof.
  intros Hc. induction rs as [|[lo hi] rs IH]; simpl; intros H;
    [reflexivity|].
  apply andb_true_iff in H. destruct H as [Hz Hrs]. apply Z.leb_le in Hz.
  destruct (Z.leb_spec lo c); [lia|]. simpl. apply IH, Hrs.
Qed.

Lemma decimal_value_ascii c :
  c < 128 ->
  decimal_value c = if ascii_digit c then Some (c - 48) else None.
Proof.
  intros Hc. unfold decimal_value, ascii_digit.
  change decimal_zeros with (48 :: tl decimal_zeros).
  cbn [decimal_in]. change (48 + 9) with 57.
  destruct ((48 <=? c) && (c <=? 57)); [reflexivity|].
  apply decimal_in_none; [exact Hc | reflexivity].
Qed.

(** On ASCII characters [isdigit] is the test for [0] to [9]. *)
Lemma chr_isdigit_ascii c : c < 128 -> chr_isdigit c = ascii_digit c.
Proof.
  intros Hc. unfold chr_isdigit, chr_isdecimal.
  rewrite decimal_value_ascii by exact Hc.
  rewrite in_ranges_none; [|exact Hc | reflexivity].
  destruct (ascii_digit c); reflexivity.
Qed.

Lemma ident_char_ascii x : ident_char x = true -> x < 128.
Proof.
  unfold ident_char, ident_chars, in_ranges. intros H.
  repeat (apply orb_true_iff in H; destruct H as [H|H]);
    try discriminate; apply andb_true_iff in H; destruct H as [_ H];
    apply Z.leb_le in H; lia.
Qed.

(** A numeric capture starts with one digit at most. *)
Lemma py_int_escaped d ds :
  py_int (d :: 92 :: ds) = Raise (IntValueError (d :: 92 :: ds)).
Proof.
  unfold py_int. cbn [leading_digits int_digits].
  change (decimal_value 92) with (@None Z).
  destruct (decimal_value d); reflexivity.
Qed.

(** [int] of a numeric capture returns for the capture [0] only. *)
Lemma py_int_numeric_capture g n :
  numeric_capture g -> py_int g = Ok n -> g = [48] /\ n = 0.
Proof.
  intros [->|(d & ds & ->)] H.
  - vm_compute in H. injection H as <-. auto.
  - rewrite py_int_escaped in H. discriminate.
Qed.

(** ** The pieces of a captured prerelease *)

Lemma split_cons sep w : exists p ps, split sep w = p :: ps.
Proof.
  induction w as [|x w (p & ps & E)]; simpl; [eauto|].
  destruct (x =? sep); [eauto|]. rewrite E. eauto.
Qed.

Lemma split_guarded w :
  forall prev, guarded prev w ->
  (prev <> 92 -> backslash_free_is_ident (hd [] (split 46 w)))
  /\ Forall backslash_free_is_ident (tl (split 46 w)).
Proof.
  induction w as [|x w IH]; simpl; intros prev G.
  - split; [intros _ _; reflexivity | constructor].
  - destruct G as [Gx Gw]. specialize (IH x Gw). destruct IH as [IH1 IH2].
    destruct (split_cons 46 w) as (p & ps & E). rewrite E in *.
    simpl in IH1, IH2.
    destruct (x =? 46) eqn:Ex; simpl.
    + apply Z.eqb_eq in Ex. subst x. split.
      * intros _ _. reflexivity.
      * constructor; [apply IH1; discriminate | exact IH2].
    + split; [|exact IH2].
      intros Hprev Hno. simpl.
      assert (Hx : x <> 92) by (intros ->; apply Hno; left; reflexivity).
      destruct Gx as [Gx|[Gx|Gx]]; try contradiction.
      rewrite Gx. simpl. apply IH1; [exact Hx|].
      intros Hin. apply Hno. right. exact Hin.
Qed.

Lemma backslash_free_plain p : backslash_free_is_ident p -> plain_ident p.
Proof.
  intros Hp Hd. unfold isdigit in Hd.
  assert (Hall : forallb chr_isdigit p = true)
    by (destruct p; [discriminate | exact Hd]).
  clear Hd. rewrite forallb_forall in Hall.
  assert (Hno : ~ In 92 p).
  { intros Hin. apply Hall in Hin. vm_compute in Hin. discriminate. }
  specialize (Hp Hno). rewrite forallb_forall in Hp.
  apply forallb_forall. intros x Hx.
  rewrite <- chr_isdigit_ascii; [apply Hall, Hx|].
  apply ident_char_ascii, Hp, Hx.
Qed.

(** Each identifier of a captured prerelease is plain. *)
Lemma split_escaped_plain g :
  escaped_idents g -> Forall plain_ident (split 46 g).
Proof.
  intros H. destruct (@split_guarded g 0 (H 0)) as [H1 H2].
  destruct (split_cons 46 g) as (p & ps & E). rewrite E in *.
  simpl in H1, H2. constructor.
  - apply backslash_free_plain, H1. discriminate.
  - eapply Forall_impl; [|exact H2]. apply backslash_free_plain.
Qed.

(** ** What [_parse_semver] returns *)

Lemma parse_semver_error value allow :
  re_match _SEMVER_RE (candidate_of value allow) = None ->
  _parse_semver value allow = Raise (ValueError invalid_semver_msg).
Proof. intros H. unfold _parse_semver. rewrite H. reflexivity. Qed.

(** A successful parse: the candidate starts [0\], the release is
    (0, 0, 0), and the prerelease identifiers are plain. *)
Lemma parse_semver_inv value allow v :
  _parse_semver value allow = Ok v ->
  exists x1 x2 pre build tail,
    candidate_of value allow
    = 48 :: 92 :: x1 :: 48 :: 92 :: x2 :: 48 :: prerelease_text pre ++ tail
    /\ v = (0, 0, 0, option_map (split 46) pre, build)
    /\ (forall g, pre = Some g -> escaped_idents g /\ g <> []).
Proof.
  unfold _parse_semver. intros H.
  destruct (re_match _SEMVER_RE (candidate_of value allow)) as [m|] eqn:Em;
    [|discriminate].
  apply semver_match_inv in Em.
  destruct Em as (g1 & x1 & g2 & x2 & g3 & pre & build & tail
                  & Es & N1 & N2 & N3 & Eg & Hpre & _).
  rewrite Eg in H.
  destruct (py_int g1) as [n1|] eqn:E1; [|discriminate].
  destruct (py_int g2) as [n2|] eqn:E2; [|discriminate].
  destruct (py_int g3) as [n3|] eqn:E3; [|discriminate].
  apply (py_int_numeric_capture N1) in E1. destruct E1 as [-> ->].
  apply (py_int_numeric_capture N2) in E2. destruct E2 as [-> ->].
  apply (py_int_numeric_capture N3) in E3. destruct E3 as [-> ->].
  simpl in H. injection H as <-.
  exists x1, x2, pre, build, tail. split; [exact Es|]. split; [|exact Hpre].
  destruct pre as [g|]; [|reflexivity].
  destruct (Hpre g eq_refl) as [_ Hne].
  destruct g; [contradiction Hne; reflexivity | reflexivity].
Qed.

Lemma parse_semver_plain value allow v :
  _parse_semver value allow = Ok v ->
  plain_pre (prerelease v).
Proof.
  intros H. apply parse_semver_inv in H.
  destruct H as (x1 & x2 & pre & build & tail & _ & -> & Hpre).
  simpl. destruct pre as [g|]; simpl; [|exact I].
  apply split_escaped_plain, Hpre. reflexivity.
Qed.

(** ** The comparator computes the precedence *)

Lemma ascii_digit_lt x : ascii_digit x = true -> x < 128.
Proof.
  unfold ascii_digit. intros H. apply andb_true_iff in H.
  destruct H as [_ H]. apply Z.leb_le in H. lia.
Qed.

Lemma numeric_isdigit a : numeric a = true -> isdigit a = true.
Proof.
  destruct a as [|x a]; [discriminate|]. unfold numeric, isdigit.
  generalize (x :: a). clear. intros a H.
  rewrite forallb_forall in *. intros x Hx.
  rewrite chr_isdigit_ascii; [apply H, Hx | apply ascii_digit_lt, H, Hx].
Qed.

Lemma plain_isdigit a : plain_ident a -> isdigit a = numeric a.
Proof.
  intros Hp. destruct (isdigit a) eqn:Hd.
  - specialize (Hp Hd). destruct a; [discriminate|].
    symmetry. exact Hp.
  - destruct (numeric a) eqn:Hn; [|reflexivity].
    apply numeric_isdigit in Hn. congruence.
Qed.

Lemma int_digits_value a :
  forallb ascii_digit a = true ->
  forall acc,
    int_digits acc a = Some (fold_left (fun n x => 10 * n + (x - 48)) a acc).
Proof.
  induction a as [|x a IH]; simpl; intros H acc; [reflexivity|].
  apply andb_true_iff in H. destruct H as [Hx Ha].
  rewrite decimal_value_ascii by (apply ascii_digit_lt, Hx).
  rewrite Hx. apply IH, Ha.
Qed.

Lemma leading_digits_ascii a :
  forallb ascii_digit a = true -> leading_digits a = Z.of_nat (length a).
Proof.
  induction a as [|x a IH]; intros H; [reflexivity|].
  cbn [forallb] in H. apply andb_true_iff in H. destruct H as [Hx Ha].
  cbn [leading_digits].
  rewrite decimal_value_ascii by (apply ascii_digit_lt, Hx).
  rewrite Hx, (IH Ha). cbn [length]. lia.
Qed.

(** [int] of a run of ASCII digits: its value within the limit, the
    limit error beyond it. *)
Lemma py_int_numeric a :
  numeric a = true -> within_limit a = true -> py_int a = Ok (ident_value a).
Proof.
  destruct a as [|x a]; [discriminate|]. unfold numeric, py_int, within_limit.
  intros H L. rewrite (leading_digits_ascii _ H). rewrite Z.gtb_ltb.
  apply Z.leb_le in L.
  replace (int_max_str_digits <? Z.of_nat (length (x :: a))) with false
    by (symmetry; apply Z.ltb_ge; exact L).
  rewrite (int_digits_value _ H). reflexivity.
Qed.

Lemma py_int_over_limit a :
  numeric a = true -> within_limit a = false ->
  py_int a = Raise (IntLimitError (Z.of_nat (length a))).
Proof.
  destruct a as [|x a]; [discriminate|]. unfold numeric, py_int, within_limit.
  intros H L. rewrite (leading_digits_ascii _ H). rewrite Z.gtb_ltb.
  apply Z.leb_gt in L.
  replace (int_max_str_digits <? Z.of_nat (length (x :: a))) with true
    by (symmetry; apply Z.ltb_lt; exact L).
  reflexivity.
Qed.

Lemma within_limit_false a :
  within_limit a = false -> int_max_str_digits < Z.of_nat (length a).
Proof. unfold within_limit. intros H. apply Z.leb_gt in H. exact H. Qed.

Lemma str_compare_flip a b : str_compare b a = CompOpp (str_compare a b).
Proof.
  revert b. induction a as [|x a IH]; intros [|y b]; simpl; try reflexivity.
  rewrite (Z.compare_antisym x y).
  destruct (x ?= y); simpl; [apply IH | reflexivity | reflexivity].
Qed.

(** On plain identifiers [_cmp_ident] returns the sign of their order,
    unless it has to convert one that is over the limit; it then raises
    the limit error. *)
Lemma cmp_ident_cases a b :
  plain_ident a -> plain_ident b ->
  (cmp_returns a b = true
   /\ _cmp_ident a b = Ok (sign (ident_compare a b)))
  \/ (cmp_returns a b = false
      /\ exists n, _cmp_ident a b = Raise (IntLimitError n)
                   /\ int_max_str_digits < n).
Proof.
  intros Ha Hb. unfold _cmp_ident, ident_compare, cmp_returns.
  rewrite (plain_isdigit Ha), (plain_isdigit Hb).
  destruct (numeric a) eqn:Na, (numeric b) eqn:Nb; cbn [andb negb orb].
  - destruct (within_limit a) eqn:La; cbn [andb].
    + destruct (within_limit b) eqn:Lb.
      * left. split; [reflexivity|].
        rewrite (py_int_numeric _ Na La), (py_int_numeric _ Nb Lb).
        cbn [bind]. rewrite Z.gtb_ltb. unfold Z.ltb.
        rewrite (Z.compare_antisym (ident_value a) (ident_value b)).
        destruct (ident_value a ?= ident_value b); reflexivity.
      * right. split; [reflexivity|].
        rewrite (py_int_numeric _ Na La), (py_int_over_limit _ Nb Lb).
        cbn [bind]. eexists. split; [reflexivity|].
        apply within_limit_false, Lb.
    + right. split; [reflexivity|].
      rewrite (py_int_over_limit _ Na La). cbn [bind].
      eexists. split; [reflexivity|]. apply within_limit_false, La.
  - left. split; reflexivity.
  - left. split; reflexivity.
  - left. split; [reflexivity|].
    unfold str_ltb. rewrite (str_compare_flip a b).
    destruct (str_compare a b); reflexivity.
Qed.

Lemma cmp_ident_spec a b :
  plain_ident a -> plain_ident b -> cmp_returns a b = true ->
  _cmp_ident a b = Ok (sign (ident_compare a b)).
Proof.
  intros Ha Hb R.
  destruct (cmp_ident_cases Ha Hb) as [[_ E]|[E _]]; [exact E | congruence].
Qed.

Lemma sign_zero c :
  (sign c =? 0) = match c with Eq => true | _ => false end.
Proof. destruct c; reflexivity. Qed.

(** The loop over the pairs: it returns at the first difference, runs
    to its end when there is none, and raises the limit error when a
    conversion on the way fails. *)
Lemma first_difference_cases l :
  forall r, Forall plain_ident l -> Forall plain_ident r ->
  (walk_returns l r = true
   /\ ((exists c, first_difference (combine l r) = Ok (Some (sign c))
                  /\ c <> Eq /\ idents_compare l r = c)
       \/ (first_difference (combine l r) = Ok None
           /\ idents_compare l r = Nat.compare (length l) (length r))))
  \/ (walk_returns l r = false
      /\ exists n, first_difference (combine l r) = Raise (IntLimitError n)
                   /\ int_max_str_digits < n).
Proof.
  induction l as [|a l IH]; intros [|b r] Hl Hr;
    try (left; split; [reflexivity | right; split; reflexivity]).
  inversion Hl as [|? ? Ha Hl']; inversion Hr as [|? ? Hb Hr']; subst.
  cbn [combine first_difference walk_returns idents_compare length].
  destruct (cmp_ident_cases Ha Hb) as [[R E]|[R (n & E & Hn)]]; rewrite R, E;
    cbn [bind andb].
  - rewrite sign_zero. destruct (ident_compare a b) eqn:C; cbn [negb].
    + apply IH; assumption.
    + left. split; [reflexivity|]. left. exists Lt.
      repeat split; discriminate.
    + left. split; [reflexivity|]. left. exists Gt.
      repeat split; discriminate.
  - right. split; [reflexivity|]. exists n. split; [reflexivity | exact Hn].
Qed.

Lemma first_difference_spec l :
  forall r, Forall plain_ident l -> Forall plain_ident r ->
  walk_returns l r = true ->
  (exists c, first_difference (combine l r) = Ok (Some (sign c))
             /\ c <> Eq /\ idents_compare l r = c)
  \/ (first_difference (combine l r) = Ok None
      /\ idents_compare l r = Nat.compare (length l) (length r)).
Proof.
  intros r Hl Hr R.
  destruct (first_difference_cases Hl Hr) as [[_ H]|[E _]];
    [exact H | congruence].
Qed.

Lemma nat_compare_sign n m :
  (if Nat.eqb n m then Ok 0
   else Ok (if (n <? m)%nat then -1 else 1))
  = Ok (sign (Nat.compare n m)).
Proof.
  destruct (Nat.compare_spec n m) as [E|L|G].
  - apply Nat.eqb_eq in E. rewrite E. reflexivity.
  - assert (E : Nat.eqb n m = false) by (apply Nat.eqb_neq; lia).
    rewrite E. apply Nat.ltb_lt in L. rewrite L. reflexivity.
  - assert (E : Nat.eqb n m = false) by (apply Nat.eqb_neq; lia).
    rewrite E.
    assert (L : (n <? m)%nat = false) by (apply Nat.ltb_ge; lia).
    rewrite L. reflexivity.
Qed.

Lemma triple_neqb_compare x y :
  triple_neqb x y = match triple_compare x y with Eq => false | _ => true end.
Proof.
  destruct x as [[x1 x2] x3], y as [[y1 y2] y3]. simpl.
  compare_component x1 y1. compare_component x2 y2. compare_component x3 y3.
Qed.

Lemma triple_ltb_compare x y :
  triple_ltb x y = match triple_compare x y with Lt => true | _ => false end.
Proof.
  destruct x as [[x1 x2] x3], y as [[y1 y2] y3]. simpl. unfold Z.ltb.
  compare_component x1 y1. compare_component x2 y2.
Qed.

(** On versions with plain identifiers the comparator returns the sign
    of the precedence, or raises the limit error of a conversion. *)
Lemma compare_parsed_cases l r :
  plain_pre (prerelease l) -> plain_pre (prerelease r) ->
  (compare_returns l r = true
   /\ compare_parsed l r = Ok (sign (precedence l r)))
  \/ (compare_returns l r = false
      /\ exists n, compare_parsed l r = Raise (IntLimitError n)
                   /\ int_max_str_digits < n).
Proof.
  destruct l as [[[[l1 l2] l3] lp] lb], r as [[[[r1 r2] r3] rp] rb].
  unfold precedence, compare_returns, release, prerelease, compare_parsed.
  cbn [fst snd]. intros Hl Hr.
  rewrite triple_neqb_compare, triple_ltb_compare.
  destruct (triple_compare (l1, l2, l3) (r1, r2, r3));
    try (left; split; reflexivity).
  destruct lp as [lp|], rp as [rp|]; try (left; split; reflexivity).
  simpl in Hl, Hr. cbn [pre_compare].
  destruct (first_difference_cases Hl Hr)
    as [[R [(c & E & Hc & Ec)|[E Ec]]]|[R (n & E & Hn)]];
    rewrite R, E; cbn [bind].
  - left. split; [reflexivity|]. rewrite Ec. reflexivity.
  - left. split; [reflexivity|]. rewrite Ec. apply nat_compare_sign.
  - right. split; [reflexivity|]. exists n. split; [reflexivity | exact Hn].
Qed.

Lemma compare_parsed_spec l r :
  plain_pre (prerelease l) -> plain_pre (prerelease r) ->
  compare_returns l r = true ->
  compare_parsed l r = Ok (sign (precedence l r)).
Proof.
  intros Hl Hr R.
  destruct (compare_parsed_cases l r Hl Hr) as [[_ E]|[E _]];
    [exact E | congruence].
Qed.

(** Identifiers that are all within the limit make the walk return. *)
Lemma cmp_returns_convertible a b :
  convertible a = true -> convertible b = true -> cmp_returns a b = true.
Proof.
  unfold convertible, cmp_returns.
  destruct (isdigit a), (isdigit b), (within_limit a), (within_limit b);
    simpl; intros; try reflexivity; discriminate.
Qed.

Lemma walk_returns_convertible l :
  forall r, forallb convertible l = true -> forallb convertible r = true ->
  walk_returns l r = true.
Proof.
  induction l as [|a l IH]; intros [|b r] Hl Hr; try reflexivity.
  cbn [forallb] in Hl, Hr.
  apply andb_true_iff in Hl. destruct Hl as [Ha Hl].
  apply andb_true_iff in Hr. destruct Hr as [Hb Hr].
  cbn [walk_returns]. rewrite (cmp_returns_convertible _ _ Ha Hb).
  cbn [andb]. destruct (ident_compare a b); [apply IH; assumption|..];
    reflexivity.
Qed.

Lemma compare_returns_convertible l r :
  convertible_pre (prerelease l) = true ->
  convertible_pre (prerelease r) = true ->
  compare_returns l r = true.
Proof.
  unfold compare_returns, convertible_pre. intros Hl Hr.
  destruct (triple_compare (release l) (release r)); try reflexivity.
  destruct (prerelease l), (prerelease r); try reflexivity.
  apply walk_returns_convertible; assumption.
Qed.

Lemma triple_compare_eq x y : triple_compare x y = Eq <-> x = y.
Proof.
  destruct x as [[x1 x2] x3], y as [[y1 y2] y3]. simpl. split.
  - destruct (Z.compare_spec x1 y1); try discriminate.
    destruct (Z.compare_spec x2 y2); try discriminate.
    destruct (Z.compare_spec x3 y3); try discriminate.
    intros _. congruence.
  - intros [= -> -> ->]. rewrite !Z.compare_refl. reflexivity.
Qed.

Lemma compare_semver_parsed left_s right_s allow l r :
  _parse_semver left_s allow = Ok l ->
  _parse_semver right_s allow = Ok r ->
  _compare_semver left_s right_s allow = compare_parsed l r.
Proof. intros Hl Hr. unfold _compare_semver. rewrite Hl, Hr. reflexivity. Qed.

(** ** C1: the grammar the parser accepts *)

(** No string with a plain dot after its first numeric part parses: the
    candidate of every successful parse starts with [0] and a
    backslash. *)
Lemma parse_semver_needs_backslash value allow v :
  _parse_semver value allow = Ok v ->
  exists rest, candidate_of value allow = 48 :: 92 :: rest.
Proof.
  intros H. apply parse_semver_inv in H.
  destruct H as (x1 & x2 & pre & b & tail & E & _). rewrite E. eauto.
Qed.

(** The malformed examples are refused, as every string without
    backslashes is. *)
Lemma parse_semver_refuses_malformed_examples :
  forall allow,
    _parse_semver (lit "1.2") allow = Raise (ValueError invalid_semver_msg)
    /\ _parse_semver (lit "1.02.3") allow
       = Raise (ValueError invalid_semver_msg)
    /\ _parse_semver (lit "abc") allow
       = Raise (ValueError invalid_semver_msg)
    /\ _parse_semver (lit "1.2.3-") allow
       = Raise (ValueError invalid_semver_msg)
    /\ _parse_semver (lit "1.2.3+") allow
       = Raise (ValueError invalid_semver_msg).
Proof. intros [|]; repeat split; vm_compute; reflexivity. Qed.

(** [$] also matches before a final newline, and [match] stops there:
    an accepted string stays accepted with a newline added. *)
Lemma parse_semver_accepts_trailing_newline :
  _parse_semver (lit "0\.0\.0" ++ [10]) true = Ok (0, 0, 0, None, None).
Proof. vm_compute. reflexivity. Qed.

(** A numeric part other than [0] is matched only with a backslash in
    it, which [int] then refuses. *)
Lemma parse_semver_nonzero_part_raises :
  _parse_semver (lit "1\\.0\.0") true = Raise (IntValueError [49; 92]).
Proof. vm_compute. reflexivity. Qed.

(** C1.  The claim has every well-formed version such as "1.2.3" or
    "10.0.0-alpha.1+build" parse.  The pattern of the source asks for a
    backslash where the grammar has a dot, so both are refused, with or
    without the v-prefix rule, while a string outside the grammar such
    as [0\.0\.0] is accepted. *)
Theorem parse_semver_refuses_wellformed_versions :
  _parse_semver (lit "1.2.3") true = Raise (ValueError invalid_semver_msg)
  /\ _parse_semver (lit "1.2.3") false = Raise (ValueError invalid_semver_msg)
  /\ _parse_semver (lit "10.0.0-alpha.1+build") true
     = Raise (ValueError invalid_semver_msg)
  /\ _parse_semver (lit "0\.0\.0") true = Ok (0, 0, 0, None, None).
Proof. repeat split; vm_compute; reflexivity. Qed.

(** ** C2: release triples and the presence of a prerelease *)

(** C2.  After the two parses the comparator returns the numeric order
    of the release triples when they differ; when they are equal the
    side without prerelease is greater, and two sides without prerelease
    are equal.  [_compare_semver] is this comparison of the two parsed
    versions. *)
Theorem compare_release_then_prerelease_presence (l r : Version) :
  (release l <> release r ->
   compare_parsed l r = Ok (sign (triple_compare (release l) (release r)))
   /\ triple_compare (release l) (release r) <> Eq)
  /\ (release l = release r -> prerelease l = None -> prerelease r <> None ->
      compare_parsed l r = Ok 1)
  /\ (release l = release r -> prerelease l <> None -> prerelease r = None ->
      compare_parsed l r = Ok (-1))
  /\ (release l = release r -> prerelease l = None -> prerelease r = None ->
      compare_parsed l r = Ok 0)
  /\ (forall left_s right_s allow,
        _parse_semver left_s allow = Ok l ->
        _parse_semver right_s allow = Ok r ->
        _compare_semver left_s right_s allow = compare_parsed l r).
Proof.
  assert (Hlink : forall left_s right_s allow,
             _parse_semver left_s allow = Ok l ->
             _parse_semver right_s allow = Ok r ->
             _compare_semver left_s right_s allow = compare_parsed l r)
    by (intros; apply compare_semver_parsed; assumption).
  split; [|split; [|split; [|split; [|exact Hlink]]]]; clear Hlink;
    destruct l as [[[[l1 l2] l3] lp] lb], r as [[[[r1 r2] r3] rp] rb];
    unfold release, prerelease, compare_parsed; cbn [fst snd];
    rewrite triple_neqb_compare, triple_ltb_compare.
  - intros Hne.
    destruct (triple_compare (l1, l2, l3) (r1, r2, r3)) eqn:E.
    + apply triple_compare_eq in E. contradiction.
    + split; [reflexivity | discriminate].
    + split; [reflexivity | discriminate].
  - intros E -> Hr. apply triple_compare_eq in E. rewrite E.
    destruct rp; [reflexivity | contradiction].
  - intros E Hl ->. apply triple_compare_eq in E. rewrite E.
    destruct lp; [reflexivity | contradiction].
  - intros E -> ->. apply triple_compare_eq in E. rewrite E. reflexivity.
Qed.

Lemma compare_release_then_prerelease_presence_witness :
  compare_parsed (1, 2, 3, None, None) (1, 3, 0, Some [lit "rc"], None)
  = Ok (-1)
  /\ compare_parsed (2, 0, 0, None, None) (2, 0, 0, Some [lit "rc"], None)
     = Ok 1
  /\ compare_parsed (2, 0, 0, Some [lit "rc"], None) (2, 0, 0, None, None)
     = Ok (-1)
  /\ compare_parsed (2, 0, 0, None, Some (lit "b1"))
                    (2, 0, 0, None, Some (lit "b2")) = Ok 0
  /\ _compare_semver (lit "0\.0\.0") (lit "v0\.0\.0-rc") true
     = compare_parsed (0, 0, 0, None, None) (0, 0, 0, Some [lit "rc"], None).
Proof.
  split.
  { destruct (compare_release_then_prerelease_presence
                (1, 2, 3, None, None) (1, 3, 0, Some [lit "rc"], None))
      as (H & _).
    apply H. vm_compute. discriminate. }
  split.
  { destruct (compare_release_then_prerelease_presence
                (2, 0, 0, None, None) (2, 0, 0, Some [lit "rc"], None))
      as (_ & H & _).
    apply H; vm_compute; try reflexivity; discriminate. }
  split.
  { destruct (compare_release_then_prerelease_presence
                (2, 0, 0, Some [lit "rc"], None) (2, 0, 0, None, None))
      as (_ & _ & H & _).
    apply H; vm_compute; try reflexivity; discriminate. }
  split.
  { destruct (compare_release_then_prerelease_presence
                (2, 0, 0, None, Some (lit "b1"))
                (2, 0, 0, None, Some (lit "b2")))
      as (_ & _ & _ & H & _).
    apply H; reflexivity. }
  destruct (compare_release_then_prerelease_presence
              (0, 0, 0, None, None) (0, 0, 0, Some [lit "rc"], None))
    as (_ & _ & _ & _ & H).
  apply H; vm_compute; reflexivity.
Defined.

(** ** C3: the walk over prerelease identifiers *)

(** With equal release triples and two prereleases of plain identifiers
    the comparator returns the order of the two identifier sequences,
    when no conversion on the way is over the limit of [int]. *)
Lemma compare_parsed_prereleases rel lp rp lb rb :
  Forall plain_ident lp -> Forall plain_ident rp ->
  walk_returns lp rp = true ->
  compare_parsed (rel, Some lp, lb) (rel, Some rp, rb)
  = Ok (sign (idents_compare lp rp)).
Proof.
  intros Hl Hr R.
  assert (E : triple_compare rel rel = Eq)
    by (apply triple_compare_eq; reflexivity).
  rewrite compare_parsed_spec; try assumption.
  - unfold precedence, release, prerelease. cbn [fst snd]. rewrite E.
    reflexivity.
  - unfold compare_returns, release, prerelease. cbn [fst snd]. rewrite E.
    exact R.
Qed.

(** The same, from the two strings on. *)
Lemma compare_semver_prereleases left_s right_s allow rel lp rp lb rb :
  _parse_semver left_s allow = Ok (rel, Some lp, lb) ->
  _parse_semver right_s allow = Ok (rel, Some rp, rb) ->
  walk_returns lp rp = true ->
  _compare_semver left_s right_s allow = Ok (sign (idents_compare lp rp)).
Proof.
  intros Hl Hr R.
  rewrite (@compare_semver_parsed left_s right_s allow _ _ Hl Hr).
  apply compare_parsed_prereleases; [| |exact R].
  - apply (@parse_semver_plain left_s allow _ Hl).
  - apply (@parse_semver_plain right_s allow _ Hr).
Qed.

(** The identifier rules on the versions the examples denote. *)
Lemma compare_parsed_prerelease_examples :
  compare_parsed (1, 0, 0, Some [lit "alpha"; lit "1"], None)
                 (1, 0, 0, Some [lit "alpha"; lit "beta"], None) = Ok (-1)
  /\ compare_parsed (1, 0, 0, Some [lit "alpha"], None)
                    (1, 0, 0, Some [lit "alpha"; lit "1"], None) = Ok (-1).
Proof. split; vm_compute; reflexivity. Qed.

(** C3.  The claim has "1.0.0-alpha.1" below "1.0.0-alpha.beta" and
    "1.0.0-alpha" below "1.0.0-alpha.1".  For these strings the
    validator of the arguments raises, and so does the comparison
    itself, for any operator: the pattern refuses both sides before the
    identifier walk is reached. *)
Theorem compare_versions_prerelease_examples_raise :
  forall (o : CompareOp.t) (info : option bool),
    _validate_semver (lit "1.0.0-alpha.1") info
    = Raise (ValueError invalid_semver_msg)
    /\ _validate_semver (lit "1.0.0-alpha") info
       = Raise (ValueError invalid_semver_msg)
    /\ compare_versions {| left := lit "1.0.0-alpha.1";
                           right := lit "1.0.0-alpha.beta";
                           op := o; cmp_allow_v_prefix := true |}
       = Raise (ValueError invalid_semver_msg)
    /\ compare_versions {| left := lit "1.0.0-alpha";
                           right := lit "1.0.0-alpha.1";
                           op := o; cmp_allow_v_prefix := true |}
       = Raise (ValueError invalid_semver_msg).
Proof.
  intros o info. destruct info as [[|]|]; repeat split;
    vm_compute; reflexivity.
Qed.

(** ** C5: bumping *)

(** What [bump_version] returns when the version parses. *)
Lemma bump_version_parsed args major_n minor_n patch_n pre b :
  _parse_semver (version args) (allow_v_prefix args)
  = Ok (major_n, minor_n, patch_n, pre, b) ->
  let pre' := if keep_prerelease args then pre else None in
  let b' := if keep_prerelease args then b else None in
  bump_version args
  = Ok {| old := version args;
          new := match part args with
                 | BumpPart.major => _format_semver (major_n + 1) 0 0 pre' b'
                 | BumpPart.minor =>
                     _format_semver major_n (minor_n + 1) 0 pre' b'
                 | BumpPart.patch =>
                     _format_semver major_n minor_n (patch_n + 1) pre' b'
                 end;
          dryRun := dry_run args |}.
Proof.
  intros H. unfold bump_version. rewrite H. simpl.
  destruct (part args), (keep_prerelease args); reflexivity.
Qed.

(** The bump and the formatter on the versions the examples denote. *)
Lemma bump_parsed_examples :
  format_version (bump_parsed (1, 2, 5, None, None) BumpPart.patch false)
  = lit "1.2.6"
  /\ format_version (bump_parsed (1, 2, 5, None, None) BumpPart.minor false)
     = lit "1.3.0"
  /\ format_version (bump_parsed (1, 2, 5, None, None) BumpPart.major false)
     = lit "2.0.0"
  /\ format_version
       (bump_parsed (1, 2, 3, Some [lit "alpha"; lit "1"],
                     Some (lit "build.5")) BumpPart.patch false)
     = lit "1.2.4"
  /\ format_version
       (bump_parsed (1, 2, 3, Some [lit "alpha"; lit "1"],
                     Some (lit "build.5")) BumpPart.patch true)
     = lit "1.2.4-alpha.1+build.5".
Proof. repeat split; vm_compute; reflexivity. Qed.

(** C5.  The claim has bump("1.2.5", patch) = "1.2.6",
    bump("1.2.5", minor) = "1.3.0", bump("1.2.5", major) = "2.0.0" and
    bump("1.2.3-alpha.1+build.5", patch) = "1.2.4".  For these versions
    the validator of the arguments raises, and so does the bump itself,
    whatever the part and the flags: the pattern refuses the version. *)
Theorem bump_version_examples_raise :
  forall (p : BumpPart.t) (dry allow keep : bool) (info : option bool),
    _validate_version (lit "1.2.5") info
    = Raise (ValueError invalid_semver_msg)
    /\ _validate_version (lit "1.2.3-alpha.1+build.5") info
       = Raise (ValueError invalid_semver_msg)
    /\ bump_version {| version := lit "1.2.5"; part := p; dry_run := dry;
                       allow_v_prefix := allow; keep_prerelease := keep |}
       = Raise (ValueError invalid_semver_msg)
    /\ bump_version {| version := lit "1.2.3-alpha.1+build.5"; part := p;
                       dry_run := dry; allow_v_prefix := allow;
                       keep_prerelease := keep |}
       = Raise (ValueError invalid_semver_msg).
Proof.
  intros p dry allow keep info.
  destruct allow, info as [[|]|]; repeat split; vm_compute; reflexivity.
Qed.

(** ** C6: parsing, then formatting *)

Lemma format_zero_release pre b :
  exists rest, _format_semver 0 0 0 pre b = 48 :: 46 :: rest.
Proof.
  unfold _format_semver. change (str_of_int 0) with [48].
  change (lit ".") with [46].
  destruct pre as [[|p ps]|], b as [[|x xs]|]; simpl; eauto.
Qed.

(** No accepted string comes back from the formatter: the formatter
    writes a dot where the accepted string has a backslash. *)
Lemma format_parse_never_roundtrips value allow v :
  _parse_semver value allow = Ok v ->
  format_version v <> candidate_of value allow.
Proof.
  intros H. apply parse_semver_inv in H.
  destruct H as (x1 & x2 & pre & b & tail & E & -> & _). rewrite E.
  unfold format_version.
  destruct (format_zero_release (option_map (split 46) pre) b) as [rest ->].
  discriminate.
Qed.

(** C6.  The claim has the formatter give back every string that
    parses (less one leading [v]).  [0\.0\.0] parses, with or without
    the v-prefix rule, and is formatted as "0.0.0"; so does [v0\.0\.0]
    under the rule. *)
Theorem format_parse_roundtrip_fails :
  _parse_semver (lit "0\.0\.0") false = Ok (0, 0, 0, None, None)
  /\ _parse_semver (lit "v0\.0\.0") true = Ok (0, 0, 0, None, None)
  /\ format_version (0, 0, 0, None, None) = lit "0.0.0"
  /\ lit "0.0.0" <> lit "0\.0\.0".
Proof. repeat split; vm_compute; try reflexivity; discriminate. Qed.

(** ** C7: build metadata *)

(** The comparator never looks at the build component. *)
Lemma compare_parsed_ignores_build l r lb rb :
  compare_parsed (fst l, lb) (fst r, rb) = compare_parsed l r.
Proof.
  destruct l as [[[[l1 l2] l3] lp] lb0], r as [[[[r1 r2] r3] rp] rb0].
  reflexivity.
Qed.

Lemma compare_semver_ignores_build l_s l_s' r_s r_s' allow l l' r r' :
  _parse_semver l_s allow = Ok l -> _parse_semver l_s' allow = Ok l' ->
  _parse_semver r_s allow = Ok r -> _parse_semver r_s' allow = Ok r' ->
  fst l = fst l' -> fst r = fst r' ->
  _compare_semver l_s r_s allow = _compare_semver l_s' r_s' allow.
Proof.
  intros Hl Hl' Hr Hr' El Er.
  rewrite (@compare_semver_parsed l_s r_s allow l r Hl Hr).
  rewrite (@compare_semver_parsed l_s' r_s' allow l' r' Hl' Hr').
  rewrite <- (compare_parsed_ignores_build l r (snd l') (snd r')).
  rewrite El, Er. destruct l' as [? ?], r' as [? ?]. reflexivity.
Qed.

(** Two accepted strings that differ in their build part only. *)
Lemma compare_versions_accepted_build_example :
  compare_versions {| left := lit "0\.0\.0\b1"; right := lit "0\.0\.0\b2";
                      op := CompareOp.eq; cmp_allow_v_prefix := true |}
  = Ok {| res_left := lit "0\.0\.0\b1"; res_right := lit "0\.0\.0\b2";
          res_op := lit "eq"; res_result := true |}.
Proof. vm_compute. reflexivity. Qed.

Lemma compare_parsed_build_example :
  compare_parsed (1, 0, 0, None, Some (lit "build.1"))
                 (1, 0, 0, None, Some (lit "build.2")) = Ok 0.
Proof. reflexivity. Qed.

(** C7.  The claim has compare("1.0.0+build.1", "1.0.0+build.2", eq)
    true.  For these strings the validator of the arguments raises, and
    so does the comparison itself, for eq and any other operator: the
    pattern refuses both versions. *)
Theorem compare_versions_build_example_raises :
  forall (o : CompareOp.t) (allow : bool) (info : option bool),
    _validate_semver (lit "1.0.0+build.1") info
    = Raise (ValueError invalid_semver_msg)
    /\ _validate_semver (lit "1.0.0+build.2") info
       = Raise (ValueError invalid_semver_msg)
    /\ compare_versions {| left := lit "1.0.0+build.1";
                           right := lit "1.0.0+build.2";
                           op := o; cmp_allow_v_prefix := allow |}
       = Raise (ValueError invalid_semver_msg).
Proof.
  intros o allow info.
  destruct allow, info as [[|]|]; repeat split; vm_compute; reflexivity.
Qed.

(** ** Precedence orders the versions *)

Lemma ord_equiv_r {A : Type} (f : A -> A -> comparison) :
  ordering f -> forall x y z, f y z = Eq -> f x y = f x z.
Proof.
  intros O x y z E.
  rewrite (ord_flip O y x), (ord_flip O z x).
  f_equal. apply (ord_equiv O). exact E.
Qed.

Lemma ord_lt_eq {A : Type} (f : A -> A -> comparison) :
  ordering f -> forall x y z, f x y = Lt -> f y z = Eq -> f x z = Lt.
Proof.
  intros O x y z L E. rewrite <- (ord_equiv_r O x y z E). exact L.
Qed.

Lemma ordering_on {A B : Type} (p : A -> B) (f : B -> B -> comparison) :
  ordering f -> ordering (fun x y => f (p x) (p y)).
Proof.
  intros O. constructor; intros.
  - apply (ord_flip O).
  - apply (ord_equiv O). assumption.
  - eapply (ord_trans O); eassumption.
Qed.

Lemma ordering_ext {A : Type} (f g : A -> A -> comparison) :
  (forall x y, f x y = g x y) -> ordering f -> ordering g.
Proof.
  intros E O. constructor; intros x y; try intros z; rewrite <- !E.
  - apply (ord_flip O).
  - apply (ord_equiv O).
  - apply (ord_trans O).
Qed.

Lemma lex_ordering {A B : Type} (f : A -> A -> comparison)
  (g : B -> B -> comparison) :
  ordering f -> ordering g -> ordering (lex f g).
Proof.
  intros Of Og. constructor; unfold lex.
  - intros [a b] [a' b']. simpl. rewrite (ord_flip Of a a').
    destruct (f a a'); simpl; [apply (ord_flip Og) | reflexivity..].
  - intros [a b] [a' b'] [a'' b'']. simpl.
    destruct (f a a') eqn:E; try discriminate. intros E'.
    rewrite (ord_equiv Of a a' a'' E).
    destruct (f a' a''); [apply (ord_equiv Og); exact E' | reflexivity..].
  - intros [a b] [a' b'] [a'' b'']. simpl.
    destruct (f a a') eqn:E1; try discriminate; intros L1;
      destruct (f a' a'') eqn:E2; try discriminate; intros L2.
    + rewrite (ord_equiv Of a a' a'' E1), E2.
      eapply (ord_trans Og); eassumption.
    + rewrite (ord_equiv Of a a' a'' E1), E2. reflexivity.
    + rewrite (ord_lt_eq Of a a' a'' E1 E2). reflexivity.
    + rewrite (ord_trans Of a a' a'' E1 E2). reflexivity.
Qed.

Lemma Z_compare_ordering : ordering Z.compare.
Proof.
  constructor.
  - intros x y. apply Z.compare_antisym.
  - intros x y z E. apply Z.compare_eq in E. subst. reflexivity.
  - intros x y z L1 L2. change (x < y) in L1. change (y < z) in L2.
    change (x < z). lia.
Qed.

Lemma str_compare_eq a b : str_compare a b = Eq -> a = b.
Proof.
  revert b. induction a as [|x a IH]; intros [|y b]; simpl;
    try discriminate; [reflexivity|].
  destruct (Z.compare_spec x y); try discriminate.
  intros E. subst. f_equal. apply IH, E.
Qed.

Lemma str_compare_ordering : ordering str_compare.
Proof.
  constructor.
  - intros a b. apply str_compare_flip.
  - intros a b c E. apply str_compare_eq in E. subst. reflexivity.
  - intros a. induction a as [|x a IH]; intros [|y b] [|z c]; simpl;
      try discriminate; try reflexivity.
    destruct (Z.compare_spec x y); try discriminate; intros L1;
      destruct (Z.compare_spec y z); try discriminate; intros L2; subst.
    + rewrite Z.compare_refl. eapply IH; eassumption.
    + replace (y ?= z) with Lt by (symmetry; apply Z.compare_lt_iff; lia).
      reflexivity.
    + replace (x ?= z) with Lt by (symmetry; apply Z.compare_lt_iff; lia).
      reflexivity.
    + replace (x ?= z) with Lt by (symmetry; apply Z.compare_lt_iff; lia).
      reflexivity.
Qed.

Lemma ident_compare_ordering : ordering ident_compare.
Proof.
  pose proof Z_compare_ordering as OZ.
  pose proof str_compare_ordering as OS.
  constructor; unfold ident_compare.
  - intros a b. destruct (numeric a), (numeric b); simpl;
      [apply (ord_flip OZ) | reflexivity | reflexivity | apply (ord_flip OS)].
  - intros a b c.
    destruct (numeric a) eqn:Na, (numeric b) eqn:Nb; try discriminate;
      intros E; destruct (numeric c); try reflexivity.
    + apply (ord_equiv OZ). exact E.
    + apply (ord_equiv OS). exact E.
  - intros a b c.
    destruct (numeric a), (numeric b), (numeric c); try discriminate;
      try reflexivity.
    + apply (ord_trans OZ).
    + apply (ord_trans OS).
Qed.

Lemma idents_compare_ordering : ordering idents_compare.
Proof.
  pose proof ident_compare_ordering as O.
  constructor.
  - intros l. induction l as [|a l IH]; intros [|b r]; simpl;
      try reflexivity.
    rewrite (ord_flip O a b).
    destruct (ident_compare a b); simpl; [apply IH | reflexivity..].
  - intros l. induction l as [|a l IH]; intros [|b r] z; simpl;
      try discriminate; [reflexivity|].
    destruct (ident_compare a b) eqn:E; try discriminate. intros E'.
    destruct z as [|c z]; [reflexivity|].
    rewrite (ord_equiv O a b c E).
    destruct (ident_compare b c); [apply IH; exact E' | reflexivity..].
  - intros l. induction l as [|a l IH]; intros [|b r] [|c z]; simpl;
      try discriminate; try reflexivity.
    destruct (ident_compare a b) eqn:E1; try discriminate; intros L1;
      destruct (ident_compare b c) eqn:E2; try discriminate; intros L2.
    + rewrite (ord_equiv O a b c E1), E2. eapply IH; eassumption.
    + rewrite (ord_equiv O a b c E1), E2. reflexivity.
    + rewrite (ord_lt_eq O a b c E1 E2). reflexivity.
    + rewrite (ord_trans O a b c E1 E2). reflexivity.
Qed.

Lemma pre_compare_ordering : ordering pre_compare.
Proof.
  pose proof idents_compare_ordering as O.
  constructor.
  - intros [l|] [r|]; simpl; try reflexivity. apply (ord_flip O).
  - intros [l|] [r|] [z|]; simpl; try discriminate; try reflexivity.
    apply (ord_equiv O).
  - intros [l|] [r|] [z|]; simpl; try discriminate; try reflexivity.
    apply (ord_trans O).
Qed.

Lemma triple_compare_ordering : ordering triple_compare.
Proof.
  apply (@ordering_ext _ (lex (lex Z.compare Z.compare) Z.compare)).
  - intros [[x1 x2] x3] [[y1 y2] y3]. unfold lex. simpl.
    destruct (x1 ?= y1); [destruct (x2 ?= y2)|..]; reflexivity.
  - repeat apply lex_ordering; apply Z_compare_ordering.
Qed.

(** Precedence is an ordering of versions. *)
Lemma precedence_ordering : ordering precedence.
Proof.
  apply (@ordering_ext _ (fun l r : Version =>
                            lex triple_compare pre_compare (fst l) (fst r))).
  - intros l r. reflexivity.
  - apply (ordering_on fst).
    apply lex_ordering;
      [apply triple_compare_ordering | apply pre_compare_ordering].
Qed.

(** ** C4: one result, five operators *)

(** The table of [compare_versions] on a three-way result: lt, eq and
    gt hold for "lower", "equal" and "greater" and for nothing else, and
    lte and gte are lt-or-eq and gt-or-eq. *)
Lemma op_to_bool_sign c :
  (op_to_bool (sign c) CompareOp.lt = true <-> c = Lt)
  /\ (op_to_bool (sign c) CompareOp.eq = true <-> c = Eq)
  /\ (op_to_bool (sign c) CompareOp.gt = true <-> c = Gt)
  /\ exactly_one (op_to_bool (sign c) CompareOp.lt)
                 (op_to_bool (sign c) CompareOp.eq)
                 (op_to_bool (sign c) CompareOp.gt)
  /\ op_to_bool (sign c) CompareOp.lte
     = op_to_bool (sign c) CompareOp.lt || op_to_bool (sign c) CompareOp.eq
  /\ op_to_bool (sign c) CompareOp.gte
     = op_to_bool (sign c) CompareOp.gt || op_to_bool (sign c) CompareOp.eq.
Proof.
  unfold exactly_one. destruct c; simpl;
    intuition (reflexivity || discriminate).
Qed.

(** On version tuples whose identifiers are plain and within the limit
    of [int], the comparison returns the sign of the precedence, which
    orders the versions. *)
Lemma compare_parsed_trichotomy l r :
  plain_pre (prerelease l) -> plain_pre (prerelease r) ->
  convertible_pre (prerelease l) = true ->
  convertible_pre (prerelease r) = true ->
  compare_parsed l r = Ok (sign (precedence l r))
  /\ ordering precedence.
Proof.
  intros Pl Pr Cl Cr. split; [|apply precedence_ordering].
  apply compare_parsed_spec; try assumption.
  apply compare_returns_convertible; assumption.
Qed.

(** The comparator on the version tuples the valid strings denote. *)
Lemma compare_parsed_valid_examples :
  compare_parsed (1, 0, 0, None, None) (2, 0, 0, None, None) = Ok (-1)
  /\ compare_parsed (1, 0, 0, Some [lit "alpha"], None) (1, 0, 0, None, None)
     = Ok (-1)
  /\ compare_parsed (1, 2, 5, None, None) (1, 2, 5, None, None) = Ok 0.
Proof. repeat split. Qed.

(** C4.  The claim has exactly one of lt, eq and gt hold for every pair
    of valid versions.  For the valid versions "1.0.0" and "2.0.0" none
    of the five operators gives an answer: the validator of the
    arguments raises and so does the comparison, with the prefix rule
    on or off.  The same for "1.0.0-alpha" against "1.0.0" and for
    "v1.2.5" against "1.2.5": the pattern refuses every one of these
    strings. *)
Theorem compare_versions_valid_versions_raise :
  forall (o : CompareOp.t) (allow : bool) (info : option bool),
    _validate_semver (lit "1.0.0") info
    = Raise (ValueError invalid_semver_msg)
    /\ _validate_semver (lit "2.0.0") info
       = Raise (ValueError invalid_semver_msg)
    /\ compare_versions {| left := lit "1.0.0"; right := lit "2.0.0";
                           op := o; cmp_allow_v_prefix := allow |}
       = Raise (ValueError invalid_semver_msg)
    /\ compare_versions {| left := lit "2.0.0"; right := lit "1.0.0";
                           op := o; cmp_allow_v_prefix := allow |}
       = Raise (ValueError invalid_semver_msg)
    /\ compare_versions {| left := lit "1.0.0-alpha"; right := lit "1.0.0";
                           op := o; cmp_allow_v_prefix := allow |}
       = Raise (ValueError invalid_semver_msg)
    /\ compare_versions {| left := lit "v1.2.5"; right := lit "1.2.5";
                           op := o; cmp_allow_v_prefix := allow |}
       = Raise (ValueError invalid_semver_msg).
Proof.
  intros o allow info.
  destruct allow, info as [[|]|]; repeat split; vm_compute; reflexivity.
Qed.

(** ** C8: what a refused version raises *)

(** C8, as stated, fails: the exception raised for "abc" does not carry
    "abc". *)
Lemma invalid_version_error_omits_raw_string :
  ~ (forall value allow,
        re_match _SEMVER_RE (candidate_of value allow) = None ->
        exists e, _parse_semver value allow = Raise e /\ carries e value).
Proof.
  intros H. destruct (H (lit "abc") true) as (e & He & Hc).
  - vm_compute. reflexivity.
  - vm_compute in He. injection He as <-. vm_compute in Hc. discriminate.
Qed.

Lemma bump_version_unmatched value allow p dry keep :
  re_match _SEMVER_RE (candidate_of value allow) = None ->
  bump_version {| version := value; part := p; dry_run := dry;
                  allow_v_prefix := allow; keep_prerelease := keep |}
  = Raise (ValueError invalid_semver_msg).
Proof.
  intros H. unfold bump_version. cbn [version allow_v_prefix].
  rewrite (@parse_semver_error value allow H). reflexivity.
Qed.

Lemma compare_versions_left_unmatched value allow other o :
  re_match _SEMVER_RE (candidate_of value allow) = None ->
  compare_versions {| left := value; right := other; op := o;
                      cmp_allow_v_prefix := allow |}
  = Raise (ValueError invalid_semver_msg).
Proof.
  intros H. unfold compare_versions, _compare_semver.
  cbn [left right cmp_allow_v_prefix].
  rewrite (@parse_semver_error value allow H). reflexivity.
Qed.

Lemma compare_versions_right_unmatched value allow other o :
  re_match _SEMVER_RE (candidate_of value allow) = None ->
  compare_versions {| left := other; right := value; op := o;
                      cmp_allow_v_prefix := allow |}
  = match _parse_semver other allow with
    | Ok _ => Raise (ValueError invalid_semver_msg)
    | Raise e => Raise e
    end.
Proof.
  intros H. unfold compare_versions, _compare_semver.
  cbn [left right cmp_allow_v_prefix].
  rewrite (@parse_semver_error value allow H).
  destruct (_parse_semver other allow); reflexivity.
Qed.

(** C8, amended.  A string the pattern does not match makes the parser,
    the bump and the comparison raise instead of returning anything;
    what is raised is the [ValueError] with the one fixed message,
    whatever the string (for a refused right operand: unless the left
    operand has raised first). *)
Theorem invalid_version_aborts_with_fixed_message value allow :
  re_match _SEMVER_RE (candidate_of value allow) = None ->
  _parse_semver value allow = Raise (ValueError invalid_semver_msg)
  /\ (forall p dry keep,
        bump_version {| version := value; part := p; dry_run := dry;
                        allow_v_prefix := allow; keep_prerelease := keep |}
        = Raise (ValueError invalid_semver_msg))
  /\ (forall other o,
        compare_versions {| left := value; right := other; op := o;
                            cmp_allow_v_prefix := allow |}
        = Raise (ValueError invalid_semver_msg))
  /\ (forall other o,
        compare_versions {| left := other; right := value; op := o;
                            cmp_allow_v_prefix := allow |}
        = match _parse_semver other allow with
          | Ok _ => Raise (ValueError invalid_semver_msg)
          | Raise e => Raise e
          end).
Proof.
  intros H. split; [apply parse_semver_error, H|]. split; [|split].
  - intros p dry keep. apply bump_version_unmatched, H.
  - intros other o. apply compare_versions_left_unmatched, H.
  - intros other o. apply compare_versions_right_unmatched, H.
Qed.

Lemma invalid_version_aborts_with_fixed_message_witness :
  _parse_semver (lit "abc") true = Raise (ValueError invalid_semver_msg).
Proof.
  apply (@invalid_version_aborts_with_fixed_message (lit "abc") true).
  vm_compute. reflexivity.
Defined.

(** ** C9: the numeric-identifier test *)

(** C9, as stated, fails: [isdigit] holds for U+0663, the Arabic-Indic
    digit three, which is not an ASCII character. *)
Lemma isdigit_holds_for_a_non_ascii_digit :
  isdigit [1635] = true /\ is_ascii 1635 = false /\ numeric [1635] = false.
Proof. repeat split. Qed.

Lemma forallb_ascii_isdigit a :
  forallb is_ascii a = true -> isdigit a = numeric a.
Proof.
  intros H. unfold isdigit, numeric. destruct a as [|x a]; [reflexivity|].
  revert H. generalize (x :: a). clear. intros a H.
  induction a as [|x a IH]; [reflexivity|]. simpl in *.
  apply andb_true_iff in H. destruct H as [Hx Ha].
  rewrite (IH Ha). f_equal. apply chr_isdigit_ascii.
  unfold is_ascii in Hx. apply andb_true_iff in Hx. destruct Hx as [_ Hx].
  apply Z.ltb_lt in Hx. exact Hx.
Qed.

(** C9, amended.  On a string of ASCII characters, and on every
    prerelease identifier of a version the parser returns, the test
    [isdigit] holds exactly when the string is non-empty and made of the
    digits 0 to 9. *)
Theorem isdigit_on_ascii_and_parsed_identifiers :
  (forall a, forallb is_ascii a = true -> isdigit a = numeric a)
  /\ (forall value allow v ids a,
        _parse_semver value allow = Ok v ->
        prerelease v = Some ids -> In a ids ->
        isdigit a = numeric a).
Proof.
  split; [exact forallb_ascii_isdigit|].
  intros value allow v ids a Hp Hids Hin.
  apply parse_semver_plain in Hp. rewrite Hids in Hp. simpl in Hp.
  rewrite Forall_forall in Hp. apply plain_isdigit, Hp, Hin.
Qed.

Lemma isdigit_on_ascii_and_parsed_identifiers_witness :
  isdigit (lit "42") = numeric (lit "42")
  /\ isdigit (lit "7") = numeric (lit "7").
Proof.
  destruct isdigit_on_ascii_and_parsed_identifiers as [H1 H2]. split.
  - apply H1. reflexivity.
  - apply (H2 (lit "0\.0\.0-rc\.7") true
              (0, 0, 0, Some [lit "rc" ++ [92]; lit "7"], None)
              [lit "rc" ++ [92]; lit "7"]).
    + vm_compute. reflexivity.
    + reflexivity.
    + right. left. reflexivity.
Defined.

(** ** C10: an uppercase prefix *)

Lemma re_match_uppercase_v rest : re_match _SEMVER_RE (86 :: rest) = None.
Proof. reflexivity. Qed.

(** C10.  A string that starts with an uppercase V is left as it is by
    the prefix rule, whether the rule is on or off; the pattern does
    not match it; and both validators, the parser, the bump and the
    comparison (for either operand) raise. *)
Theorem uppercase_v_prefix_is_rejected (rest : pystr) :
  let s := 86 :: rest in
  (forall allow, candidate_of s allow = s)
  /\ re_match _SEMVER_RE s = None
  /\ (forall info,
        _validate_version s info = Raise (ValueError invalid_semver_msg)
        /\ _validate_semver s info = Raise (ValueError invalid_semver_msg))
  /\ (forall allow,
        _parse_semver s allow = Raise (ValueError invalid_semver_msg))
  /\ (forall p dry allow keep,
        bump_version {| version := s; part := p; dry_run := dry;
                        allow_v_prefix := allow; keep_prerelease := keep |}
        = Raise (ValueError invalid_semver_msg))
  /\ (forall other o allow,
        compare_versions {| left := s; right := other; op := o;
                            cmp_allow_v_prefix := allow |}
        = Raise (ValueError invalid_semver_msg))
  /\ (forall other o allow,
        compare_versions {| left := other; right := s; op := o;
                            cmp_allow_v_prefix := allow |}
        = match _parse_semver other allow with
          | Ok _ => Raise (ValueError invalid_semver_msg)
          | Raise e => Raise e
          end).
Proof.
  intros s.
  assert (Hc : forall allow, candidate_of s allow = s)
    by (intros [|]; reflexivity).
  assert (Hm : forall allow,
             re_match _SEMVER_RE (candidate_of s allow) = None)
    by (intros allow; rewrite Hc; apply re_match_uppercase_v).
  split; [exact Hc|]. split; [apply re_match_uppercase_v|].
  split.
  { intros info. unfold _validate_version, _validate_semver.
    rewrite Hm. split; reflexivity. }
  split.
  { intros allow. apply parse_semver_error, Hm. }
  split.
  { intros p dry allow keep. apply bump_version_unmatched, Hm. }
  split.
  { intros other o allow. apply compare_versions_left_unmatched, Hm. }
  intros other o allow. apply compare_versions_right_unmatched, Hm.
Qed.

(** ** Further properties of the parser *)

Lemma re_match_lowercase_v rest : re_match _SEMVER_RE (118 :: rest) = None.
Proof. reflexivity. Qed.

Lemma parse_semver_matches value allow v :
  _parse_semver value allow = Ok v ->
  exists m, re_match _SEMVER_RE (candidate_of value allow) = Some m.
Proof.
  unfold _parse_semver. intros H.
  destruct (re_match _SEMVER_RE (candidate_of value allow)) as [m|];
    [eauto | discriminate].
Qed.

(** A string that parses does not start with [v] once the prefix rule
    has been applied, so the rule has nothing more to strip. *)
Lemma parsed_candidate_is_stable value allow v :
  _parse_semver value allow = Ok v ->
  candidate_of (candidate_of value allow) true = candidate_of value allow.
Proof.
  intros H. apply parse_semver_needs_backslash in H. destruct H as [rest E].
  rewrite E. reflexivity.
Qed.

(** X1.  Whatever [_parse_semver] returns has major, minor and patch 0:
    a numeric part other than [0] is matched only together with a
    backslash, which [int] refuses.  The string parsed then reads [0],
    backslash, one character, three times over (less the last
    separator). *)
Theorem parse_semver_release_is_zero
  value allow major_n minor_n patch_n pre b :
  _parse_semver value allow = Ok (major_n, minor_n, patch_n, pre, b) ->
  major_n = 0 /\ minor_n = 0 /\ patch_n = 0
  /\ exists x1 x2 tail,
       candidate_of value allow
       = 48 :: 92 :: x1 :: 48 :: 92 :: x2 :: 48 :: tail.
Proof.
  intros H. apply parse_semver_inv in H.
  destruct H as (x1 & x2 & g & b' & tail & E & [= -> -> -> _ _] & _).
  repeat split; try reflexivity. rewrite E. eauto.
Qed.

Lemma parse_semver_release_is_zero_witness :
  0 = 0 /\ 0 = 0 /\ 0 = 0
  /\ exists x1 x2 tail,
       candidate_of (lit "v0\.0\.0-rc\.7") true
       = 48 :: 92 :: x1 :: 48 :: 92 :: x2 :: 48 :: tail.
Proof.
  apply (@parse_semver_release_is_zero
           (lit "v0\.0\.0-rc\.7") true 0 0 0
           (Some [lit "rc" ++ [92]; lit "7"]) None).
  vm_compute. reflexivity.
Defined.

(** X2.  The prefix rule takes one lowercase [v] and only when it is
    on: a string starting with [v] is refused when the rule is off, and
    a string starting with [vv] is refused either way. *)
Theorem v_prefix_is_stripped_once_and_only_when_allowed (rest : pystr) :
  _parse_semver (118 :: rest) false = Raise (ValueError invalid_semver_msg)
  /\ (forall allow,
        _parse_semver (118 :: 118 :: rest) allow
        = Raise (ValueError invalid_semver_msg))
  /\ _parse_semver (118 :: rest) true = _parse_semver rest false.
Proof.
  split; [|split].
  - apply parse_semver_error. apply re_match_lowercase_v.
  - intros [|]; apply parse_semver_error; apply re_match_lowercase_v.
  - reflexivity.
Qed.

(** X3.  Every string the parser accepts passes both field validators,
    which return it unchanged; this holds when the validation info has
    no [allow_v_prefix] entry, and for any entry unless the entry is
    false while the parse ran with the rule on. *)
Theorem parsed_versions_pass_the_validators value allow v info :
  _parse_semver value allow = Ok v ->
  info_allow_v_prefix info = true \/ allow = false ->
  _validate_version value info = Ok value
  /\ _validate_semver value info = Ok value.
Proof.
  intros H Hinfo.
  assert (E : candidate_of value (info_allow_v_prefix info)
              = candidate_of value allow).
  { destruct Hinfo as [-> | ->].
    - destruct allow; [reflexivity|].
      apply (@parsed_candidate_is_stable value false v H).
    - destruct (info_allow_v_prefix info); [|reflexivity].
      apply (@parsed_candidate_is_stable value false v H). }
  destruct (@parse_semver_matches value allow v H) as [m Hm].
  unfold _validate_version, _validate_semver. rewrite E, Hm.
  split; reflexivity.
Qed.

Lemma parsed_versions_pass_the_validators_witness :
  _validate_version (lit "v0\.0\.0") None = Ok (lit "v0\.0\.0")
  /\ _validate_semver (lit "v0\.0\.0") None = Ok (lit "v0\.0\.0").
Proof.
  apply (@parsed_versions_pass_the_validators
           (lit "v0\.0\.0") true (0, 0, 0, None, None) None).
  - vm_compute. reflexivity.
  - left. reflexivity.
Defined.

Lemma py_int_numeric_capture_cases g :
  numeric_capture g ->
  (g = [48] /\ py_int g = Ok 0)
  \/ ((exists d ds, g = d :: 92 :: ds) /\ py_int g = Raise (IntValueError g)).
Proof.
  intros [->|(d & ds & ->)]; [left; split; reflexivity|].
  right. split; [eauto | apply py_int_escaped].
Qed.

(** X4.  Passing the validator does not make the parse succeed: once
    the pattern has matched, [_parse_semver] either returns or lets the
    [ValueError] of [int] escape, raised on a numeric part that holds a
    backslash; it never raises the "valid SemVer" error then. *)
Theorem validated_version_parses_or_int_raises value allow :
  _validate_version value (Some allow) = Ok value ->
  (exists v, _parse_semver value allow = Ok v)
  \/ (exists d ds,
        _parse_semver value allow = Raise (IntValueError (d :: 92 :: ds))).
Proof.
  unfold _validate_version, _parse_semver. cbn [info_allow_v_prefix].
  destruct (re_match _SEMVER_RE (candidate_of value allow)) as [m|] eqn:Em;
    [intros _ | discriminate].
  apply semver_match_inv in Em.
  destruct Em as (g1 & x1 & g2 & x2 & g3 & pre & b & tail
                  & _ & N1 & N2 & N3 & -> & _ & _).
  destruct (py_int_numeric_capture_cases N1) as [[-> ->]|[(d & ds & ->) ->]];
    [|right; exists d, ds; reflexivity].
  destruct (py_int_numeric_capture_cases N2) as [[-> ->]|[(d & ds & ->) ->]];
    [|right; exists d, ds; reflexivity].
  destruct (py_int_numeric_capture_cases N3) as [[-> ->]|[(d & ds & ->) ->]];
    [|right; exists d, ds; reflexivity].
  left. eexists. reflexivity.
Qed.

Lemma validated_version_parses_or_int_raises_witness :
  (exists v, _parse_semver (lit "1\\.0\.0") true = Ok v)
  \/ (exists d ds,
        _parse_semver (lit "1\\.0\.0") true
        = Raise (IntValueError (d :: 92 :: ds))).
Proof.
  apply (@validated_version_parses_or_int_raises (lit "1\\.0\.0") true).
  vm_compute. reflexivity.
Defined.

(** ** Further properties of the bump *)

Lemma format_bumped_zero_release pre b p keep :
  exists d rest,
    format_version (bump_parsed (0, 0, 0, pre, b) p keep) = d :: 46 :: rest
    /\ (d = 48 \/ d = 49).
Proof.
  unfold format_version, bump_parsed, _format_semver.
  destruct p, keep; cbn [negb Z.add];
    change (str_of_int (0 + 1)) with [49];
    change (str_of_int 0) with [48]; change (lit ".") with [46];
    destruct pre as [[|i ids]|], b as [[|x xs]|]; simpl; eauto.
Qed.

(** X5.  For every version the parser accepts, a bump that does not
    keep the prerelease returns exactly "1.0.0", "0.1.0" or "0.0.1",
    according to the part: the release it starts from is always
    (0, 0, 0).  [old] is the string given and [dryRun] the flag given. *)
Theorem bump_version_without_keep value p dry allow v :
  _parse_semver value allow = Ok v ->
  bump_version {| version := value; part := p; dry_run := dry;
                  allow_v_prefix := allow; keep_prerelease := false |}
  = Ok {| old := value;
          new := match p with
                 | BumpPart.major => lit "1.0.0"
                 | BumpPart.minor => lit "0.1.0"
                 | BumpPart.patch => lit "0.0.1"
                 end;
          dryRun := dry |}.
Proof.
  intros H. unfold bump_version. cbn [version allow_v_prefix part
                                       keep_prerelease dry_run].
  rewrite H. apply parse_semver_inv in H.
  destruct H as (x1 & x2 & g & b & tail & _ & -> & _).
  destruct p; reflexivity.
Qed.

Lemma bump_version_without_keep_witness :
  bump_version {| version := lit "v0\.0\.0-rc\.7"; part := BumpPart.minor;
                  dry_run := true; allow_v_prefix := true;
                  keep_prerelease := false |}
  = Ok {| old := lit "v0\.0\.0-rc\.7"; new := lit "0.1.0"; dryRun := true |}.
Proof.
  apply (@bump_version_without_keep
           (lit "v0\.0\.0-rc\.7") BumpPart.minor true true
           (0, 0, 0, Some [lit "rc" ++ [92]; lit "7"], None)).
  vm_compute. reflexivity.
Defined.

(** X6.  Bumps do not chain: the [new] string of any result of
    [bump_version] is refused by the parser, with the prefix rule on or
    off, so bumping it again raises. *)
Theorem bump_version_output_is_refused args r :
  bump_version args = Ok r ->
  forall p dry allow keep,
    _parse_semver (new r) allow = Raise (ValueError invalid_semver_msg)
    /\ bump_version {| version := new r; part := p; dry_run := dry;
                       allow_v_prefix := allow; keep_prerelease := keep |}
       = Raise (ValueError invalid_semver_msg).
Proof.
  unfold bump_version at 1. intros H p dry allow keep.
  destruct (_parse_semver (version args) (allow_v_prefix args)) as [v|e]
    eqn:Hp; [|discriminate].
  simpl in H. injection H as <-. cbn [new].
  apply parse_semver_inv in Hp.
  destruct Hp as (x1 & x2 & g & b & tail & _ & -> & _).
  destruct (format_bumped_zero_release (option_map (split 46) g) b
              (part args) (keep_prerelease args)) as (d & rest & -> & Hd).
  assert (Hm : re_match _SEMVER_RE (candidate_of (d :: 46 :: rest) allow)
               = None)
    by (destruct Hd as [-> | ->], allow; reflexivity).
  split; [apply parse_semver_error, Hm | apply bump_version_unmatched, Hm].
Qed.

Lemma bump_version_output_is_refused_witness :
  _parse_semver (lit "0.0.1") true = Raise (ValueError invalid_semver_msg)
  /\ bump_version {| version := lit "0.0.1"; part := BumpPart.patch;
                     dry_run := true; allow_v_prefix := true;
                     keep_prerelease := false |}
     = Raise (ValueError invalid_semver_msg).
Proof.
  apply (@bump_version_output_is_refused
           {| version := lit "0\.0\.0"; part := BumpPart.patch;
              dry_run := true; allow_v_prefix := true;
              keep_prerelease := false |}
           {| old := lit "0\.0\.0"; new := lit "0.0.1"; dryRun := true |}).
  vm_compute. reflexivity.
Defined.

(** ** Further properties of the comparison *)

Lemma sign_opp c : sign (CompOpp c) = - sign c.
Proof. destruct c; reflexivity. Qed.

Lemma sign_inj c d : sign c = sign d -> c = d.
Proof. destruct c, d; simpl; intros H; try reflexivity; discriminate. Qed.

Lemma precedence_refl v : precedence v v = Eq.
Proof.
  pose proof (ord_flip precedence_ordering v v) as H.
  destruct (precedence v v); [reflexivity | discriminate..].
Qed.

(** Two accepted strings: the comparison returns the sign of the
    precedence, or raises the limit error of a conversion. *)
Lemma compare_semver_cases left_s right_s allow l r :
  _parse_semver left_s allow = Ok l ->
  _parse_semver right_s allow = Ok r ->
  (compare_returns l r = true
   /\ _compare_semver left_s right_s allow = Ok (sign (precedence l r)))
  \/ (compare_returns l r = false
      /\ exists n, _compare_semver left_s right_s allow
                   = Raise (IntLimitError n)
                   /\ int_max_str_digits < n).
Proof.
  intros Hl Hr. rewrite (@compare_semver_parsed left_s right_s allow l r Hl Hr).
  apply compare_parsed_cases.
  - apply (@parse_semver_plain left_s allow l Hl).
  - apply (@parse_semver_plain right_s allow r Hr).
Qed.

Lemma compare_semver_spec left_s right_s allow l r :
  _parse_semver left_s allow = Ok l ->
  _parse_semver right_s allow = Ok r ->
  compare_returns l r = true ->
  _compare_semver left_s right_s allow = Ok (sign (precedence l r)).
Proof.
  intros Hl Hr R.
  destruct (@compare_semver_cases left_s right_s allow l r Hl Hr)
    as [[_ E]|[E _]]; [exact E | congruence].
Qed.

(** Whatever the comparison returns, it returns the negation with the
    operands swapped; no assumption on the identifiers is needed. *)
Lemma cmp_ident_swap a b c :
  _cmp_ident a b = Ok c -> _cmp_ident b a = Ok (- c).
Proof.
  unfold _cmp_ident. destruct (isdigit a), (isdigit b); cbn [andb negb].
  - destruct (py_int a) as [ai|]; [|discriminate].
    destruct (py_int b) as [bi|]; [|discriminate]. cbn [bind].
    intros [= <-]. f_equal. rewrite !Z.gtb_ltb.
    destruct (Z.ltb_spec ai bi), (Z.ltb_spec bi ai); try lia; reflexivity.
  - intros [= <-]. reflexivity.
  - intros [= <-]. reflexivity.
  - unfold str_ltb. rewrite (str_compare_flip a b).
    destruct (str_compare a b); intros [= <-]; reflexivity.
Qed.

Lemma first_difference_swap l :
  forall r d,
    first_difference (combine l r) = Ok d ->
    first_difference (combine r l) = Ok (option_map Z.opp d).
Proof.
  induction l as [|a l IH]; intros [|b r] d;
    try (intros [= <-]; reflexivity).
  cbn [combine first_difference].
  destruct (_cmp_ident a b) as [c|] eqn:E; [|discriminate].
  rewrite (cmp_ident_swap _ _ E). cbn [bind].
  replace (- c =? 0) with (c =? 0)
    by (destruct (Z.eqb_spec c 0), (Z.eqb_spec (- c) 0); lia || reflexivity).
  destruct (c =? 0); cbn [negb]; [apply IH|].
  intros [= <-]. reflexivity.
Qed.

Lemma compare_parsed_swap l r c :
  compare_parsed l r = Ok c -> compare_parsed r l = Ok (- c).
Proof.
  destruct l as [[[[l1 l2] l3] lp] lb], r as [[[[r1 r2] r3] rp] rb].
  unfold compare_parsed. rewrite !triple_neqb_compare, !triple_ltb_compare.
  rewrite (ord_flip triple_compare_ordering (l1, l2, l3) (r1, r2, r3)).
  destruct (triple_compare (l1, l2, l3) (r1, r2, r3)); cbn [CompOpp];
    try (intros [= <-]; reflexivity).
  destruct lp as [lp|], rp as [rp|]; try (intros [= <-]; reflexivity).
  destruct (first_difference (combine lp rp)) as [d|] eqn:E; [|discriminate].
  rewrite (first_difference_swap _ _ E). cbn [bind].
  destruct d as [x|]; cbn [option_map]; [intros [= <-]; reflexivity|].
  rewrite (Nat.eqb_sym (length rp) (length lp)).
  destruct (Nat.eqb_spec (length lp) (length rp)) as [_|Hne];
    [intros [= <-]; reflexivity|].
  destruct (Nat.ltb_spec (length lp) (length rp)),
           (Nat.ltb_spec (length rp) (length lp));
    try lia; intros [= <-]; reflexivity.
Qed.

(** X7.  Swapping the operands negates the result: whenever comparing
    left with right returns [c], comparing right with left returns
    [-c].  For two strings the parser accepts whose numeric prerelease
    identifiers are within the digit limit of [int], both comparisons
    do return. *)
Theorem compare_semver_swap left_s right_s allow :
  (forall c,
      _compare_semver left_s right_s allow = Ok c ->
      _compare_semver right_s left_s allow = Ok (- c))
  /\ (forall l r,
        _parse_semver left_s allow = Ok l ->
        _parse_semver right_s allow = Ok r ->
        convertible_pre (prerelease l) = true ->
        convertible_pre (prerelease r) = true ->
        exists c,
          _compare_semver left_s right_s allow = Ok c
          /\ _compare_semver right_s left_s allow = Ok (- c)).
Proof.
  assert (Swap : forall c,
             _compare_semver left_s right_s allow = Ok c ->
             _compare_semver right_s left_s allow = Ok (- c)).
  { intros c. unfold _compare_semver.
    destruct (_parse_semver left_s allow) as [l|]; [|discriminate].
    destruct (_parse_semver right_s allow) as [r|]; [|discriminate].
    cbn [bind]. apply compare_parsed_swap. }
  split; [exact Swap|]. intros l r Hl Hr Cl Cr.
  exists (sign (precedence l r)).
  assert (E : _compare_semver left_s right_s allow
              = Ok (sign (precedence l r))).
  { apply compare_semver_spec; try assumption.
    apply compare_returns_convertible; assumption. }
  split; [exact E | apply Swap, E].
Qed.

Lemma compare_semver_swap_witness :
  _compare_semver (lit "0\.0\.0") (lit "0\.0\.0-rc\.2") true = Ok (- -1)
  /\ exists c,
       _compare_semver (lit "0\.0\.0-rc\.2") (lit "0\.0\.0") true = Ok c
       /\ _compare_semver (lit "0\.0\.0") (lit "0\.0\.0-rc\.2") true
          = Ok (- c).
Proof.
  destruct (compare_semver_swap (lit "0\.0\.0-rc\.2") (lit "0\.0\.0") true)
    as [H1 H2].
  split.
  - apply H1. vm_compute. reflexivity.
  - apply (H2 (0, 0, 0, Some [lit "rc" ++ [92]; lit "2"], None)
              (0, 0, 0, None, None)); vm_compute; reflexivity.
Defined.

(** The conversions the walk of a against c makes are made by the walks
    of a against b and of b against c, when b lies between the two. *)
Lemma cmp_returns_between a b c :
  plain_ident a -> plain_ident b -> plain_ident c ->
  cmp_returns a b = true -> cmp_returns b c = true ->
  ident_compare a b <> Gt -> ident_compare b c <> Gt ->
  cmp_returns a c = true.
Proof.
  intros Pa Pb Pc. unfold cmp_returns, ident_compare.
  rewrite (plain_isdigit Pa), (plain_isdigit Pb), (plain_isdigit Pc).
  destruct (numeric a), (numeric b), (numeric c),
           (within_limit a), (within_limit b), (within_limit c);
    simpl; intros; try reflexivity; congruence.
Qed.

Lemma walk_returns_trans l :
  forall r z,
    Forall plain_ident l -> Forall plain_ident r -> Forall plain_ident z ->
    walk_returns l r = true -> walk_returns r z = true ->
    idents_compare l r = Lt -> idents_compare r z = Lt ->
    walk_returns l z = true.
Proof.
  pose proof ident_compare_ordering as O.
  induction l as [|a l IH]; intros r z Hl Hr Hz R1 R2 C1 C2; [reflexivity|].
  destruct r as [|b r]; [discriminate C1|].
  destruct z as [|c z]; [reflexivity|].
  inversion Hl as [|? ? Pa Hl']; inversion Hr as [|? ? Pb Hr'];
    inversion Hz as [|? ? Pc Hz']; subst.
  cbn [walk_returns idents_compare] in *.
  apply andb_true_iff in R1. destruct R1 as [Rab R1].
  apply andb_true_iff in R2. destruct R2 as [Rbc R2].
  assert (Rac : cmp_returns a c = true).
  { apply (cmp_returns_between Pa Pb Pc Rab Rbc).
    - intros E. rewrite E in C1. discriminate.
    - intros E. rewrite E in C2. discriminate. }
  rewrite Rac. cbn [andb].
  destruct (ident_compare a b) eqn:E1; try discriminate;
    destruct (ident_compare b c) eqn:E2; try discriminate.
  - rewrite (ord_equiv O a b c E1), E2. apply (IH r z); assumption.
  - rewrite (ord_equiv O a b c E1), E2. reflexivity.
  - rewrite (ord_lt_eq O a b c E1 E2). reflexivity.
  - rewrite (ord_trans O a b c E1 E2). reflexivity.
Qed.

Lemma compare_returns_trans a b c :
  plain_pre (prerelease a) -> plain_pre (prerelease b) ->
  plain_pre (prerelease c) ->
  compare_returns a b = true -> compare_returns b c = true ->
  precedence a b = Lt -> precedence b c = Lt ->
  compare_returns a c = true.
Proof.
  pose proof triple_compare_ordering as O.
  unfold compare_returns, precedence. intros Pa Pb Pc R1 R2 C1 C2.
  destruct (triple_compare (release a) (release b)) eqn:E1;
    try discriminate;
    destruct (triple_compare (release b) (release c)) eqn:E2;
    try discriminate.
  - rewrite (ord_equiv O _ _ _ E1), E2.
    destruct (prerelease a) as [la|], (prerelease b) as [lb|],
             (prerelease c) as [lc|];
      simpl in *; try reflexivity; try discriminate.
    apply (@walk_returns_trans la lb lc); assumption.
  - rewrite (ord_equiv O _ _ _ E1), E2. reflexivity.
  - rewrite (ord_lt_eq O _ _ _ E1 E2). reflexivity.
  - rewrite (ord_trans O _ _ _ E1 E2). reflexivity.
Qed.

(** X8.  "Lower" is transitive on the strings the parser accepts: if
    a compares below b and b below c, then a compares below c. *)
Theorem compare_semver_transitive a_s b_s c_s allow a b c :
  _parse_semver a_s allow = Ok a ->
  _parse_semver b_s allow = Ok b ->
  _parse_semver c_s allow = Ok c ->
  _compare_semver a_s b_s allow = Ok (-1) ->
  _compare_semver b_s c_s allow = Ok (-1) ->
  _compare_semver a_s c_s allow = Ok (-1).
Proof.
  intros Ha Hb Hc Hab Hbc.
  pose proof (@parse_semver_plain a_s allow a Ha) as Pa.
  pose proof (@parse_semver_plain b_s allow b Hb) as Pb.
  pose proof (@parse_semver_plain c_s allow c Hc) as Pc.
  destruct (@compare_semver_cases a_s b_s allow a b Ha Hb)
    as [[R1 E1]|[_ (n & E1 & _)]]; rewrite E1 in Hab; [|discriminate].
  destruct (@compare_semver_cases b_s c_s allow b c Hb Hc)
    as [[R2 E2]|[_ (n & E2 & _)]]; rewrite E2 in Hbc; [|discriminate].
  injection Hab as Hab. injection Hbc as Hbc.
  apply (sign_inj _ Lt) in Hab. apply (sign_inj _ Lt) in Hbc.
  rewrite (@compare_semver_spec a_s c_s allow a c Ha Hc
             (compare_returns_trans a b c Pa Pb Pc R1 R2 Hab Hbc)).
  rewrite (ord_trans precedence_ordering a b c Hab Hbc). reflexivity.
Qed.

Lemma compare_semver_transitive_witness :
  _compare_semver (lit "0\.0\.0-rc\.2") (lit "0\.0\.0") true = Ok (-1).
Proof.
  apply (@compare_semver_transitive
           (lit "0\.0\.0-rc\.2") (lit "0\.0\.0-rc\.10") (lit "0\.0\.0") true
           (0, 0, 0, Some [lit "rc" ++ [92]; lit "2"], None)
           (0, 0, 0, Some [lit "rc" ++ [92]; lit "10"], None)
           (0, 0, 0, None, None));
    vm_compute; reflexivity.
Defined.

Lemma ident_compare_refl a : ident_compare a a = Eq.
Proof.
  pose proof (ord_flip ident_compare_ordering a a) as H.
  destruct (ident_compare a a); [reflexivity | discriminate..].
Qed.

Lemma cmp_returns_refl a : cmp_returns a a = convertible a.
Proof.
  unfold cmp_returns, convertible.
  destruct (isdigit a), (within_limit a); reflexivity.
Qed.

Lemma walk_returns_refl l : walk_returns l l = forallb convertible l.
Proof.
  induction l as [|a l IH]; [reflexivity|].
  cbn [walk_returns forallb].
  rewrite cmp_returns_refl, ident_compare_refl, IH. reflexivity.
Qed.

(** A version compared with itself: the walk converts every numeric
    identifier. *)
Lemma compare_returns_refl v :
  compare_returns v v = convertible_pre (prerelease v).
Proof.
  unfold compare_returns, convertible_pre.
  replace (triple_compare (release v) (release v)) with Eq
    by (symmetry; apply triple_compare_eq; reflexivity).
  destruct (prerelease v); [apply walk_returns_refl | reflexivity].
Qed.

(** X9.  A [v] in front changes nothing when the prefix rule is on: a
    string [s] accepted without the rule parses to the same version as
    [v] followed by [s] with it.  When every numeric prerelease
    identifier of [s] is within the digit limit of [int], the two
    compare equal and [compare_versions] answers true for eq, lte and
    gte and false for lt and gt; when one is over the limit, the
    comparison raises the limit error of [int]. *)
Theorem v_prefix_equivalence s v :
  _parse_semver s false = Ok v ->
  _parse_semver (118 :: s) true = Ok v
  /\ _parse_semver s true = Ok v
  /\ (convertible_pre (prerelease v) = true ->
      _compare_semver (118 :: s) s true = Ok 0
      /\ forall o,
           compare_versions {| left := 118 :: s; right := s; op := o;
                               cmp_allow_v_prefix := true |}
           = Ok {| res_left := 118 :: s; res_right := s;
                   res_op := CompareOp.value o;
                   res_result := match o with
                                 | CompareOp.lt | CompareOp.gt => false
                                 | _ => true
                                 end |})
  /\ (convertible_pre (prerelease v) = false ->
      exists n,
        _compare_semver (118 :: s) s true = Raise (IntLimitError n)
        /\ int_max_str_digits < n).
Proof.
  intros H.
  assert (H1 : _parse_semver (118 :: s) true = Ok v) by exact H.
  assert (H2 : _parse_semver s true = Ok v).
  { destruct (@parse_semver_needs_backslash s false v H) as [rest E].
    change (candidate_of s false) with s in E. subst s. exact H. }
  split; [exact H1|]. split; [exact H2|].
  destruct (@compare_semver_cases (118 :: s) s true v v H1 H2)
    as [[R E]|[R E]]; rewrite compare_returns_refl in R; split;
    try (intros C; rewrite C in R; discriminate).
  - intros _. rewrite precedence_refl in E. split; [exact E|].
    intros o. unfold compare_versions. cbn [left right op cmp_allow_v_prefix].
    rewrite E. destruct o; reflexivity.
  - intros _. exact E.
Qed.

Lemma v_prefix_equivalence_witness :
  _compare_semver (lit "v0\.0\.0-rc\.7") (lit "0\.0\.0-rc\.7") true = Ok 0.
Proof.
  destruct (@v_prefix_equivalence (lit "0\.0\.0-rc\.7")
              (0, 0, 0, Some [lit "rc" ++ [92]; lit "7"], None))
    as (_ & _ & H & _).
  - vm_compute. reflexivity.
  - apply H. vm_compute. reflexivity.
Defined.

Lemma plain_identb_plain a : plain_identb a = true -> plain_ident a.
Proof.
  unfold plain_identb, plain_ident. intros H Hd. rewrite Hd in H. exact H.
Qed.

Lemma forallb_plain ids :
  forallb plain_identb ids = true -> Forall plain_ident ids.
Proof.
  intros H. apply Forall_forall. intros a Ha.
  apply plain_identb_plain. rewrite forallb_forall in H. apply H, Ha.
Qed.

(** X10.  Build metadata has no say in a comparison: when two pairs of
    accepted strings parse to versions that agree in release and
    prerelease, side by side, both comparisons return the same value. *)
Theorem compare_semver_build_independent
  l_s l_s' r_s r_s' allow l l' r r' :
  _parse_semver l_s allow = Ok l -> _parse_semver l_s' allow = Ok l' ->
  _parse_semver r_s allow = Ok r -> _parse_semver r_s' allow = Ok r' ->
  release l = release l' -> prerelease l = prerelease l' ->
  release r = release r' -> prerelease r = prerelease r' ->
  _compare_semver l_s r_s allow = _compare_semver l_s' r_s' allow.
Proof.
  intros Hl Hl' Hr Hr' Rl Pl Rr Pr.
  apply (@compare_semver_ignores_build l_s l_s' r_s r_s' allow l l' r r');
    try assumption.
  - destruct l as [[? ?] ?], l' as [[? ?] ?].
    unfold release, prerelease in *. cbn [fst snd] in *. congruence.
  - destruct r as [[? ?] ?], r' as [[? ?] ?].
    unfold release, prerelease in *. cbn [fst snd] in *. congruence.
Qed.

Lemma compare_semver_build_independent_witness :
  _compare_semver (lit "0\.0\.0-rc\1") (lit "0\.0\.0-rc\3") true
  = _compare_semver (lit "0\.0\.0-rc\2") (lit "0\.0\.0-rc") true.
Proof.
  apply (@compare_semver_build_independent
           (lit "0\.0\.0-rc\1") (lit "0\.0\.0-rc\2")
           (lit "0\.0\.0-rc\3") (lit "0\.0\.0-rc") true
           (0, 0, 0, Some [lit "rc"], Some (lit "1"))
           (0, 0, 0, Some [lit "rc"], Some (lit "2"))
           (0, 0, 0, Some [lit "rc"], Some (lit "3"))
           (0, 0, 0, Some [lit "rc"], None));
    vm_compute; reflexivity.
Defined.

(** X11.  The walk over prerelease identifiers.  For two versions with
    the same release that both have a prerelease, made of identifiers
    on which [isdigit] means ASCII digits: when every numeric
    identifier is within the digit limit of [int], the comparator
    returns the sign of the order of the two sequences (identifiers are
    compared pairwise, two numeric ones as integers, a numeric one
    below any other, two others by code points; the first difference
    decides, and a sequence that is a proper prefix of the other is
    lower).  Whatever the lengths, a result it returns is that sign,
    and an exception it raises is the limit error of [int]. *)
Theorem compare_parsed_prerelease_walk rel lp rp lb rb :
  forallb plain_identb lp = true ->
  forallb plain_identb rp = true ->
  let cmp := compare_parsed (rel, Some lp, lb) (rel, Some rp, rb) in
  (forallb convertible lp = true -> forallb convertible rp = true ->
   cmp = Ok (sign (idents_compare lp rp)))
  /\ (forall c, cmp = Ok c -> c = sign (idents_compare lp rp))
  /\ (forall e, cmp = Raise e ->
      exists n, e = IntLimitError n /\ int_max_str_digits < n).
Proof.
  intros Hl Hr cmp. apply forallb_plain in Hl. apply forallb_plain in Hr.
  assert (E : triple_compare rel rel = Eq)
    by (apply triple_compare_eq; reflexivity).
  assert (P : precedence (rel, Some lp, lb) (rel, Some rp, rb)
              = idents_compare lp rp).
  { unfold precedence, release, prerelease. cbn [fst snd]. rewrite E.
    reflexivity. }
  split; [|split].
  - intros Cl Cr. apply compare_parsed_prereleases; try assumption.
    apply walk_returns_convertible; assumption.
  - intros c Hc.
    destruct (compare_parsed_cases (rel, Some lp, lb) (rel, Some rp, rb)
                Hl Hr) as [[_ H]|[_ (n & H & _)]];
      fold cmp in H; rewrite H in Hc; [|discriminate].
    injection Hc as <-. rewrite P. reflexivity.
  - intros e He.
    destruct (compare_parsed_cases (rel, Some lp, lb) (rel, Some rp, rb)
                Hl Hr) as [[_ H]|[_ (n & H & Hn)]];
      fold cmp in H; rewrite H in He; [discriminate|].
    injection He as <-. exists n. split; [reflexivity | exact Hn].
Qed.

Lemma compare_parsed_prerelease_walk_witness :
  compare_parsed (1, 0, 0, Some [lit "alpha"; lit "2"], None)
                 (1, 0, 0, Some [lit "alpha"; lit "10"; lit "x"], None)
  = Ok (-1).
Proof.
  destruct (@compare_parsed_prerelease_walk
              (1, 0, 0) [lit "alpha"; lit "2"]
              [lit "alpha"; lit "10"; lit "x"] None None) as (H & _);
    [reflexivity | reflexivity |].
  apply H; reflexivity.
Defined.

Lemma numeric_plain a : numeric a = true -> plain_ident a.
Proof.
  intros H _. destruct a; [discriminate | exact H].
Qed.

(** X12.  Leading zeros do not count in a numeric identifier, up to the
    digit limit of [int]: an identifier of fewer than 4300 ASCII digits
    and the same with a [0] in front compare equal, as identifiers and
    as the prereleases of two versions of the same release.  From 4300
    digits on, the [0] in front takes the longer one over the limit and
    the comparison raises the limit error. *)
Theorem leading_zero_identifiers_compare_equal a rel lb rb :
  numeric a = true ->
  (Z.of_nat (length a) < int_max_str_digits ->
   _cmp_ident (48 :: a) a = Ok 0
   /\ compare_parsed (rel, Some [48 :: a], lb) (rel, Some [a], rb) = Ok 0)
  /\ (int_max_str_digits <= Z.of_nat (length a) ->
      _cmp_ident (48 :: a) a
      = Raise (IntLimitError (Z.of_nat (length a) + 1))
      /\ compare_parsed (rel, Some [48 :: a], lb) (rel, Some [a], rb)
         = Raise (IntLimitError (Z.of_nat (length a) + 1))).
Proof.
  intros H.
  assert (H0 : numeric (48 :: a) = true)
    by (destruct a; [discriminate | exact H]).
  assert (E : ident_compare (48 :: a) a = Eq).
  { unfold ident_compare. rewrite H0, H. unfold ident_value.
    cbn [fold_left]. apply Z.compare_refl. }
  assert (T : triple_neqb rel rel = false).
  { rewrite triple_neqb_compare.
    replace (triple_compare rel rel) with Eq
      by (symmetry; apply triple_compare_eq; reflexivity).
    reflexivity. }
  split.
  - intros L.
    assert (R : cmp_returns (48 :: a) a = true).
    { unfold cmp_returns, within_limit.
      replace (Z.of_nat (length (48 :: a)) <=? int_max_str_digits) with true
        by (symmetry; apply Z.leb_le; cbn [length]; lia).
      replace (Z.of_nat (length a) <=? int_max_str_digits) with true
        by (symmetry; apply Z.leb_le; lia).
      apply orb_true_r. }
    split.
    + rewrite (cmp_ident_spec (numeric_plain _ H0) (numeric_plain _ H) R).
      rewrite E. reflexivity.
    + rewrite compare_parsed_prereleases.
      * cbn [idents_compare]. rewrite E. reflexivity.
      * constructor; [apply numeric_plain, H0 | constructor].
      * constructor; [apply numeric_plain, H | constructor].
      * cbn [walk_returns]. rewrite R, E. reflexivity.
  - intros L.
    assert (W : within_limit (48 :: a) = false)
      by (unfold within_limit; apply Z.leb_gt; cbn [length]; lia).
    assert (C : _cmp_ident (48 :: a) a
                = Raise (IntLimitError (Z.of_nat (length a) + 1))).
    { unfold _cmp_ident.
      rewrite (numeric_isdigit _ H0), (numeric_isdigit _ H). cbn [andb].
      rewrite (py_int_over_limit _ H0 W). cbn [bind]. do 2 f_equal.
      cbn [length]. lia. }
    split; [exact C|].
    destruct rel as [[r1 r2] r3]. unfold compare_parsed. rewrite T.
    cbn [combine first_difference]. rewrite C. reflexivity.
Qed.

Lemma leading_zero_identifiers_compare_equal_witness :
  (_cmp_ident (lit "07") (lit "7") = Ok 0
   /\ compare_parsed (1, 2, 3, Some [lit "07"], None)
                     (1, 2, 3, Some [lit "7"], None) = Ok 0)
  /\ _cmp_ident (48 :: repeat 55 4300) (repeat 55 4300)
     = Raise (IntLimitError 4301).
Proof.
  split.
  - destruct (@leading_zero_identifiers_compare_equal (lit "7") (1, 2, 3)
                None None) as [H _]; [reflexivity|].
    apply H. reflexivity.
  - destruct (@leading_zero_identifiers_compare_equal (repeat 55 4300)
                (1, 2, 3) None None) as [_ H]; [vm_compute; reflexivity|].
    destruct H as [H _]; [vm_compute; discriminate|].
    rewrite H. vm_compute. reflexivity.
Defined.

(** ** The matcher finds a match when there is one *)

Lemma rep_loop_ext body k1 k2 :
  (forall pos s c j1 j2,
      (forall p s' c', j1 p s' c' = j2 p s' c') ->
      body pos s c j1 = body pos s c j2) ->
  (forall p s' c', k1 p s' c' = k2 p s' c') ->
  forall fuel pos s c,
    rep_loop body k1 fuel pos s c = rep_loop body k2 fuel pos s c.
Proof.
  intros Hb Hk fuel. induction fuel as [|fuel IH]; intros pos s c; simpl.
  - apply Hk.
  - rewrite Hk.
    rewrite (Hb pos s c _
               (fun pos' s' c' =>
                  if (length s' <? length s)%nat
                  then rep_loop body k2 fuel pos' s' c' else None)).
    + reflexivity.
    + intros p s' c'. rewrite IH. reflexivity.
Qed.

Lemma run_ext r :
  forall pos s c k1 k2,
    (forall p s' c', k1 p s' c' = k2 p s' c') ->
    run r pos s c k1 = run r pos s c k2.
Proof.
  induction r
    as [|a| | |rs|r1 IHr1 r2 IHr2|r1 IHr1 r2 IHr2|r1 IHr1|n r1 IHr1| |];
    intros pos s c k1 k2 H; simpl.
  - apply H.
  - destruct s as [|x s]; [|destruct (x =? a)]; auto.
  - destruct s as [|x s]; [|destruct (x =? 10)]; auto.
  - destruct s as [|x s]; [|destruct (chr_isdecimal x)]; auto.
  - destruct s as [|x s]; [|destruct (in_ranges x rs)]; auto.
  - apply IHr1. intros p s' c'. apply IHr2, H.
  - rewrite (IHr1 pos s c k1 k2 H), (IHr2 pos s c k1 k2 H). reflexivity.
  - apply rep_loop_ext; assumption.
  - apply IHr1. intros p s' c'. apply H.
  - destruct (Nat.eqb pos 0); auto.
  - destruct s as [|x [|y s]]; [| destruct (x =? 10) |]; auto.
Qed.

Lemma rep_loop_fail body k :
  (forall pos s c j, (forall p s' c', j p s' c' = None) ->
                     body pos s c j = None) ->
  (forall p s' c', k p s' c' = None) ->
  forall fuel pos s c, rep_loop body k fuel pos s c = None.
Proof.
  intros Hb Hk fuel. induction fuel as [|fuel IH]; intros pos s c; simpl.
  - apply Hk.
  - rewrite Hb, Hk; [reflexivity|].
    intros p s' c'. rewrite IH. destruct (length s' <? length s)%nat;
      reflexivity.
Qed.

Lemma run_fail r :
  forall pos s c k,
    (forall p s' c', k p s' c' = None) -> run r pos s c k = None.
Proof.
  induction r
    as [|a| | |rs|r1 IHr1 r2 IHr2|r1 IHr1 r2 IHr2|r1 IHr1|n r1 IHr1| |];
    intros pos s c k H; simpl.
  - apply H.
  - destruct s as [|x s]; [|destruct (x =? a)]; auto.
  - destruct s as [|x s]; [|destruct (x =? 10)]; auto.
  - destruct s as [|x s]; [|destruct (chr_isdecimal x)]; auto.
  - destruct s as [|x s]; [|destruct (in_ranges x rs)]; auto.
  - apply IHr1. intros p s' c'. apply IHr2, H.
  - rewrite (IHr1 pos s c k H). apply IHr2, H.
  - apply rep_loop_fail; assumption.
  - apply IHr1. intros p s' c'. apply H.
  - destruct (Nat.eqb pos 0); auto.
  - destruct s as [|x [|y s]]; [| destruct (x =? 10) |]; auto.
Qed.

(** More fuel than there are characters left changes nothing. *)
Lemma rep_loop_fuel r k :
  forall n s,
    (length s <= n)%nat ->
    forall f1 f2 pos c,
      (length s <= f1)%nat -> (length s <= f2)%nat ->
      rep_loop (run r) k f1 pos s c = rep_loop (run r) k f2 pos s c.
Proof.
  assert (Hnone : forall pos (c : captures),
             run r pos [] c (fun _ _ _ => None) = None)
    by (intros pos c; apply run_fail; reflexivity).
  induction n as [|n IH]; intros s Hs f1 f2 pos c H1 H2.
  - destruct s; [|simpl in Hs; lia].
    destruct f1, f2; simpl; rewrite ?Hnone; reflexivity.
  - destruct f1 as [|f1], f2 as [|f2].
    + reflexivity.
    + destruct s; [|simpl in H1; lia]. simpl. rewrite Hnone. reflexivity.
    + destruct s; [|simpl in H2; lia]. simpl. rewrite Hnone. reflexivity.
    + simpl.
      rewrite (@run_ext r pos s c _
                 (fun pos' s' c' =>
                    if (length s' <? length s)%nat
                    then rep_loop (run r) k f2 pos' s' c' else None)).
      * reflexivity.
      * intros p s' c'.
        destruct (length s' <? length s)%nat eqn:E; [|reflexivity].
        apply Nat.ltb_lt in E. apply IH; lia.
Qed.

Lemma rep_loop_continues body k fuel pos s c :
  k pos s c <> None -> rep_loop body k fuel pos s c <> None.
Proof.
  intros H. destruct fuel; simpl; [exact H|].
  destruct (body pos s c _); [discriminate | exact H].
Qed.

Lemma run_complete r pos w rest c c' :
  lang r pos w rest c c' ->
  forall c0 k,
    (forall c'', k (pos + length w)%nat rest c'' <> None) ->
    run r pos (w ++ rest) c0 k <> None.
Proof.
  induction 1; intros c0 k Hk; cbn [length] in Hk;
    rewrite ?Nat.add_0_r, ?Nat.add_1_r in Hk.
  - apply Hk.
  - simpl. rewrite Z.eqb_refl. apply Hk.
  - simpl. replace (x =? 10) with false by (symmetry; apply Z.eqb_neq, H).
    apply Hk.
  - simpl. rewrite H. apply Hk.
  - simpl. rewrite H. apply Hk.
  - cbn [run]. rewrite <- app_assoc. apply IHlang1. intros c3.
    apply IHlang2. intros c4. rewrite length_app, Nat.add_assoc in Hk.
    apply Hk.
  - cbn [run]. destruct (run r1 pos (w ++ rest) c0 k) eqn:E;
      [discriminate|]. exfalso. exact (IHlang c0 k Hk E).
  - cbn [run]. destruct (run r1 pos (w ++ rest) c0 k);
      [discriminate | apply IHlang, Hk].
  - cbn [run]. apply rep_loop_continues, Hk.
  - destruct w1 as [|x w1].
    + cbn [length app] in *. rewrite Nat.add_0_r in IHlang2.
      apply IHlang2, Hk.
    + cbn [run]. rewrite <- app_assoc.
      remember ((x :: w1) ++ w2 ++ rest) as s eqn:Es.
      assert (Hlen : length s = S (length w1 + length (w2 ++ rest)))
        by (subst s; cbn [app length]; rewrite length_app; reflexivity).
      rewrite Hlen. cbn [rep_loop].
      destruct (run r pos s c0 _) eqn:E; [discriminate|]. exfalso.
      revert E. subst s. apply IHlang1. intros c3.
      replace (length (w2 ++ rest) <? length ((x :: w1) ++ w2 ++ rest))%nat
        with true
        by (symmetry; apply Nat.ltb_lt; rewrite Hlen; lia).
      rewrite (@rep_loop_fuel r k (length (w2 ++ rest)) (w2 ++ rest)
                 (Nat.le_refl _) _ (length (w2 ++ rest))); try lia.
      apply (IHlang2 c3 k). intros c4.
      rewrite length_app, Nat.add_assoc in Hk. apply Hk.
  - cbn [run]. apply IHlang. intros c3. apply Hk.
  - simpl. apply Hk.
  - cbn [run app]. destruct H as [-> | ->]; [apply Hk|].
    rewrite Z.eqb_refl. apply Hk.
Qed.

(** ** The strings the parser accepts *)

Lemma lang_rep_snoc r pos w :
  forall w' rest c c1 c2,
    lang (Rep0 r) pos w (w' ++ rest) c c1 ->
    lang r (pos + length w)%nat w' rest c1 c2 ->
    lang (Rep0 r) pos (w ++ w') rest c c2.
Proof.
  intros w' rest c c1 c2 H.
  remember (Rep0 r) as r0 eqn:Er. remember (w' ++ rest) as rest0 eqn:Erest.
  revert c2. induction H; try discriminate; injection Er as ->; subst rest0;
    intros c3 H'.
  - cbn [length app] in *. rewrite Nat.add_0_r in H'.
    rewrite <- (app_nil_r w'). eapply lang_Rep0_more.
    + rewrite app_nil_l. exact H'.
    + constructor.
  - rewrite <- app_assoc. eapply lang_Rep0_more.
    + rewrite <- app_assoc. exact H.
    + apply IHlang2; [reflexivity | reflexivity |].
      rewrite length_app, Nat.add_assoc in H'. exact H'.
Qed.

Lemma lang_ident_run_intro w pos rest c :
  ident_run w -> lang (Rep1 (Set_ ident_chars)) pos w rest c c.
Proof.
  intros [Hne Hall]. destruct w as [|x w]; [contradiction|].
  simpl in Hall. apply andb_true_iff in Hall. destruct Hall as [Hx Hw].
  unfold Rep1. change (x :: w) with ([x] ++ w). eapply lang_Cat.
  - constructor. exact Hx.
  - clear Hne Hx. generalize (pos + length [x])%nat. revert Hw.
    induction w as [|y w IH]; intros Hw p; [constructor|].
    simpl in Hw. apply andb_true_iff in Hw. destruct Hw as [Hy Hw].
    change (y :: w) with ([y] ++ w). eapply lang_Rep0_more.
    + constructor. exact Hy.
    + apply IH, Hw.
Qed.

Lemma lang_chunk_intro z w pos rest c :
  z <> 10 -> ident_run w ->
  lang (Cat (Lit 92) (Cat Dot (Rep1 (Set_ ident_chars))))
       pos (92 :: z :: w) rest c c.
Proof.
  intros Hz Hw. change (92 :: z :: w) with ([92] ++ [z] ++ w).
  eapply lang_Cat; [constructor|].
  eapply lang_Cat; [constructor; exact Hz|].
  apply lang_ident_run_intro, Hw.
Qed.

Lemma ident_text_lang g :
  ident_text g -> forall pos rest c, lang identifiers pos g rest c c.
Proof.
  intros H.
  assert (S : exists w1 w2,
             g = w1 ++ w2 /\ ident_run w1
             /\ forall pos rest c,
                 lang (Rep0 (Cat (Lit 92) (Cat Dot (Rep1 (Set_ ident_chars)))))
                      pos w2 rest c c).
  { induction H as [w Hw | g z w Hg IH Hz Hw].
    - exists w, []. rewrite app_nil_r.
      split; [reflexivity|]. split; [assumption|].
      intros. constructor.
    - destruct IH as (w1 & w2 & -> & H1 & H2).
      exists w1, (w2 ++ 92 :: z :: w). rewrite <- app_assoc.
      split; [reflexivity|]. split; [assumption|].
      intros pos rest c. eapply lang_rep_snoc; [apply H2|].
      apply lang_chunk_intro; assumption. }
  destruct S as (w1 & w2 & -> & H1 & H2).
  intros pos rest c. unfold identifiers. eapply lang_Cat.
  - apply lang_ident_run_intro, H1.
  - apply H2.
Qed.

Lemma lang_rep_lit_intro a n pos rest c :
  lang (Rep0 (Lit a)) pos (repeat a n) rest c c.
Proof.
  revert pos. induction n as [|n IH]; intros pos; simpl; [constructor|].
  change (a :: repeat a n) with ([a] ++ repeat a n).
  eapply lang_Rep0_more; [constructor | apply IH].
Qed.

Lemma forallb_ident_run w :
  Forall (fun x => ident_char x = true) w -> w <> [] -> ident_run w.
Proof.
  intros H Hne. split; [exact Hne|]. apply forallb_forall.
  rewrite Forall_forall in H. exact H.
Qed.

Lemma lang_chunks_text w pos rest c c' :
  lang (Rep0 (Cat (Lit 92) (Cat Dot (Rep1 (Set_ ident_chars)))))
       pos w rest c c' ->
  forall g, ident_text g -> ident_text (g ++ w).
Proof.
  remember (Rep0 (Cat (Lit 92) (Cat Dot (Rep1 (Set_ ident_chars)))))
    as r eqn:Er.
  intros H. induction H; try discriminate; injection Er as ->; intros g Hg.
  - rewrite app_nil_r. exact Hg.
  - rewrite app_assoc. apply IHlang2; [reflexivity|].
    clear IHlang1 IHlang2 H0. do 4 lang_step.
    match goal with
    | H : lang (Rep1 _) _ _ _ _ _ |- _ =>
        apply lang_ident_run in H; destruct H as [Hw Hne]
    end.
    apply (ident_text_more Hg); [assumption|].
    apply forallb_ident_run; assumption.
Qed.

Lemma lang_identifiers_text pos w rest c c' :
  lang identifiers pos w rest c c' -> ident_text w.
Proof.
  unfold identifiers. intros H. lang_step.
  match goal with
  | H : lang (Rep1 _) _ _ _ _ _ |- _ =>
      apply lang_ident_run in H; destruct H as [H1 Hne]
  end.
  match goal with
  | H : lang (Rep0 _) _ _ _ _ _ |- _ => eapply lang_chunks_text; [exact H|]
  end.
  apply ident_text_run, forallb_ident_run; assumption.
Qed.

Lemma lang_rep_lit_inv a pos w rest c c' :
  lang (Rep0 (Lit a)) pos w rest c c' -> w = repeat a (length w).
Proof.
  remember (Rep0 (Lit a)) as r eqn:Er. intros H.
  induction H; try discriminate; injection Er as ->; [reflexivity|].
  inv H. simpl. f_equal. apply IHlang2. reflexivity.
Qed.

Lemma lang_numeric_text n pos w rest c c' :
  lang (numeric_part n) pos w rest c c' -> numeric_text w.
Proof.
  unfold numeric_part. intros H. do 2 lang_step.
  - lang_step. left. reflexivity.
  - do 4 lang_step. right. simpl. do 2 eexists. split; [reflexivity|].
    match goal with
    | H : in_ranges _ _ = true |- _ =>
        simpl in H; rewrite orb_false_r in H;
        apply andb_true_iff in H; destruct H as [H1 H2];
        apply Z.leb_le in H1; apply Z.leb_le in H2; lia
    end.
Qed.

Lemma lang_optional_prerelease_text pos w rest c c' :
  lang (Maybe (Cat (Lit 45) (Group 4%nat identifiers))) pos w rest c c' ->
  (w = [] /\ c' = c)
  \/ (exists g, w = 45 :: g /\ ident_text g /\ c' = set_capture 4%nat g c).
Proof.
  unfold Maybe. intros H. lang_step.
  - do 3 lang_step. right.
    match goal with
    | H : lang identifiers _ ?g _ _ _ |- _ =>
        pose proof (lang_identifiers_text H) as Ht;
        apply lang_identifiers in H; destruct H as (_ & _ & ->);
        exists g
    end.
    repeat split. exact Ht.
  - lang_step. left. split; reflexivity.
Qed.

Lemma lang_optional_build_text pos w rest c c' :
  lang (Maybe (Cat (Rep1 (Lit 92)) (Group 5%nat identifiers)))
       pos w rest c c' ->
  (w = [] /\ c' = c)
  \/ (exists n g, w = repeat 92 (S n) ++ g /\ ident_text g
                  /\ c' = set_capture 5%nat g c).
Proof.
  unfold Maybe. intros H. lang_step.
  - do 2 lang_step. right.
    match goal with
    | H : lang (Rep1 _) _ ?w _ _ ?c1 |- _ =>
        assert (c1 = c) by (eapply lang_groupless; [exact H | reflexivity]);
        subst c1; unfold Rep1 in H; do 2 lang_step
    end.
    match goal with
    | H : lang (Rep0 (Lit 92)) _ ?w _ _ _ |- _ =>
        apply lang_rep_lit_inv in H; exists (length w)
    end.
    match goal with
    | H : lang identifiers _ ?g _ _ _ |- _ =>
        pose proof (lang_identifiers_text H) as Ht;
        apply lang_identifiers in H; destruct H as (_ & _ & ->);
        exists g
    end.
    split; [|split; [exact Ht | reflexivity]].
    simpl. f_equal. f_equal. assumption.
  - lang_step. left. split; reflexivity.
Qed.

(** Every subject [_SEMVER_RE] matches, in full. *)
Lemma semver_match_full s m :
  re_match _SEMVER_RE s = Some m ->
  exists g1 x1 g2 x2 g3 pre_t build_t nl pre b,
    s = g1 ++ 92 :: x1 :: g2 ++ 92 :: x2 :: g3 ++ pre_t ++ build_t ++ nl
    /\ numeric_text g1 /\ numeric_text g2 /\ numeric_text g3
    /\ x1 <> 10 /\ x2 <> 10 /\ (nl = [] \/ nl = [10])
    /\ groups5 m = (Some g1, Some g2, Some g3, pre, b)
    /\ ((pre = None /\ pre_t = [])
        \/ exists g, pre = Some g /\ pre_t = 45 :: g /\ ident_text g)
    /\ ((b = None /\ build_t = [])
        \/ exists n g, b = Some g /\ build_t = repeat 92 (S n) ++ g
                       /\ ident_text g).
Proof.
  unfold re_match. rewrite semver_re_shape. intros H.
  apply run_sound in H. destruct H as (w & s' & c' & -> & L & [= <-]).
  unfold semver_shape in L.
  repeat lang_step.
  repeat match goal with
  | H : lang (numeric_part _) _ _ _ _ _ |- _ =>
      pose proof (lang_numeric_text H);
      apply lang_numeric_part in H; destruct H as [_ ->]
  end.
  match goal with
  | H : lang (Maybe (Cat (Lit 45) _)) _ ?w _ _ _ |- _ =>
      apply lang_optional_prerelease_text in H; rename H into Hpre;
      set (pre_t := w) in *
  end.
  match goal with
  | H : lang (Maybe _) _ ?w _ _ _ |- _ =>
      apply lang_optional_build_text in H; rename H into Hb;
      set (build_t := w) in *
  end.
  match goal with
  | |- context [ ?g1 ++ [92] ++ [?x1] ++ ?g2 ++ [92] ++ [?x2] ++ ?g3
                 ++ pre_t ++ build_t ++ [] ] =>
      exists g1, x1, g2, x2, g3, pre_t, build_t, s'
  end.
  destruct Hpre as [[Ep ->] | (g & Ep & Hg & ->)];
    destruct Hb as [[Eb ->] | (n & g' & Eb & Hg' & ->)].
  - exists None, None. split.
    { rewrite app_nil_r. simpl. repeat (rewrite <- app_assoc; simpl).
      reflexivity. }
    repeat (split; [assumption|]). split; [reflexivity|]. split; left; auto.
  - exists None, (Some g'). split.
    { rewrite app_nil_r. simpl. repeat (rewrite <- app_assoc; simpl).
      reflexivity. }
    repeat (split; [assumption|]). split; [reflexivity|].
    split; [left; auto | right; eauto].
  - exists (Some g), None. split.
    { rewrite app_nil_r. simpl. repeat (rewrite <- app_assoc; simpl).
      reflexivity. }
    repeat (split; [assumption|]). split; [reflexivity|].
    split; [right; eauto | left; auto].
  - exists (Some g), (Some g'). split.
    { rewrite app_nil_r. simpl. repeat (rewrite <- app_assoc; simpl).
      reflexivity. }
    repeat (split; [assumption|]). split; [reflexivity|].
    split; right; eauto.
Qed.

Lemma prerelease_part_lang t c :
  prerelease_part t ->
  exists c', forall pos rest,
      lang (Maybe (Cat (Lit 45) (Group 4%nat identifiers))) pos t rest c c'.
Proof.
  intros [-> | (g & -> & Hg)].
  - exists c. intros pos rest. apply lang_Or_r. constructor.
  - exists (set_capture 4%nat g c). intros pos rest. apply lang_Or_l.
    change (45 :: g) with ([45] ++ g). eapply lang_Cat; [constructor|].
    constructor. apply ident_text_lang, Hg.
Qed.

Lemma build_part_lang t c :
  build_part t ->
  exists c', forall pos rest,
      lang (Maybe (Cat (Rep1 (Lit 92)) (Group 5%nat identifiers)))
           pos t rest c c'.
Proof.
  intros [-> | (n & g & -> & Hg)].
  - exists c. intros pos rest. apply lang_Or_r. constructor.
  - exists (set_capture 5%nat g c). intros pos rest. apply lang_Or_l.
    eapply lang_Cat.
    + unfold Rep1. change (repeat 92 (S n)) with ([92] ++ repeat 92 n).
      eapply lang_Cat; [constructor | apply lang_rep_lit_intro].
    + constructor. apply ident_text_lang, Hg.
Qed.

Lemma numeric_part_zero_lang n pos rest c :
  lang (numeric_part n) pos [48] rest c (set_capture n [48] c).
Proof. unfold numeric_part. constructor. apply lang_Or_l. constructor. Qed.

(** The pattern matches every accepted string. *)
Lemma accepted_matches s :
  accepted s -> exists m, re_match _SEMVER_RE s = Some m.
Proof.
  intros (x & y & pre_t & build_t & nl & -> & Hx & Hy & Hpre & Hb & Hnl).
  set (c3 := set_capture 3%nat [48]
               (set_capture 2%nat [48]
                  (set_capture 1%nat [48] no_captures))).
  destruct (prerelease_part_lang c3 Hpre) as [c4 L4].
  destruct (build_part_lang c4 Hb) as [c5 L5].
  assert (L : lang semver_shape 0%nat
                ([] ++ [48] ++ [92] ++ [x] ++ [48] ++ [92] ++ [y] ++ [48]
                 ++ pre_t ++ build_t ++ []) nl no_captures c5).
  { unfold semver_shape.
    eapply lang_Cat; [constructor|].
    eapply lang_Cat; [apply numeric_part_zero_lang|].
    eapply lang_Cat; [constructor|].
    eapply lang_Cat; [constructor; exact Hx|].
    eapply lang_Cat; [apply numeric_part_zero_lang|].
    eapply lang_Cat; [constructor|].
    eapply lang_Cat; [constructor; exact Hy|].
    eapply lang_Cat; [apply numeric_part_zero_lang|].
    eapply lang_Cat; [apply L4|].
    eapply lang_Cat; [apply L5|].
    constructor. exact Hnl. }
  pose proof (@run_complete _ _ _ _ _ _ L no_captures
                (fun _ _ c => Some c)) as R.
  unfold re_match. rewrite semver_re_shape.
  cbn [app] in R. rewrite app_nil_r, <- app_assoc in R.
  destruct (run semver_shape 0 _ no_captures _) as [m|];
    [eauto | exfalso; apply R; [discriminate | reflexivity]].
Qed.

Lemma numeric_text_zero g rest rest' :
  numeric_text g -> g ++ rest = 48 :: rest' -> g = [48] /\ rest = rest'.
Proof.
  intros [-> | (d & ds & -> & Hd)] E.
  - injection E as <-. auto.
  - injection E as -> _. lia.
Qed.

Lemma parse_semver_iff_accepted value allow :
  (exists v, _parse_semver value allow = Ok v)
  <-> accepted (candidate_of value allow).
Proof.
  split.
  - intros [v H]. unfold _parse_semver in H.
    destruct (re_match _SEMVER_RE (candidate_of value allow)) as [m|] eqn:Em;
      [|discriminate].
    pose proof (semver_match_inv _ Em) as I.
    destruct I as (h1 & z1 & h2 & z2 & h3 & pre0 & b0 & t0 & _
                   & N1 & N2 & N3 & Eg0 & _).
    apply semver_match_full in Em.
    destruct Em as (g1 & x1 & g2 & x2 & g3 & pre_t & build_t & nl & pre & b
                    & Es & _ & _ & _ & Hx & Hy & Hnl & Eg & Hpre & Hb).
    rewrite Eg in Eg0. injection Eg0 as <- <- <- _ _. rewrite Eg in H.
    destruct (py_int g1) as [n1|] eqn:E1; [|discriminate].
    destruct (py_int g2) as [n2|] eqn:E2; [|discriminate].
    destruct (py_int g3) as [n3|] eqn:E3; [|discriminate].
    apply (py_int_numeric_capture N1) in E1. destruct E1 as [-> _].
    apply (py_int_numeric_capture N2) in E2. destruct E2 as [-> _].
    apply (py_int_numeric_capture N3) in E3. destruct E3 as [-> _].
    exists x1, x2, pre_t, build_t, nl.
    split; [exact Es|]. repeat (split; [assumption|]).
    split; [|split; [|exact Hnl]].
    + destruct Hpre as [[_ ->] | (g & _ & -> & Hg)];
        [left; reflexivity | right; eauto].
    + destruct Hb as [[_ ->] | (n & g & _ & -> & Hg)];
        [left; reflexivity | right; eauto].
  - intros A. destruct (accepted_matches A) as [m Em].
    destruct A as (x & y & pt & bt & nl0 & Es0 & _).
    unfold _parse_semver. rewrite Em.
    apply semver_match_full in Em.
    destruct Em as (g1 & x1 & g2 & x2 & g3 & pre_t & build_t & nl & pre & b
                    & Es & T1 & T2 & T3 & _ & _ & _ & Eg & _).
    rewrite Es0 in Es. symmetry in Es.
    apply (numeric_text_zero _ T1) in Es. destruct Es as [-> Es].
    injection Es as _ Es.
    apply (numeric_text_zero _ T2) in Es. destruct Es as [-> Es].
    injection Es as _ Es.
    apply (numeric_text_zero _ T3) in Es. destruct Es as [-> Es].
    rewrite Eg. eexists. reflexivity.
Qed.

(** X13.  The strings [_parse_semver] accepts, exactly: after the
    prefix rule the string reads [0], a backslash and one character,
    [0], a backslash and one character, [0]; then optionally a hyphen
    and identifier text; then optionally backslashes and identifier
    text; then optionally one newline.  Identifier text is runs of
    [[0-9A-Za-z-]], each further run led in by a backslash and one
    character; the single characters are anything but a newline. *)
Theorem parse_semver_accepts_exactly value allow :
  (exists v, _parse_semver value allow = Ok v)
  <-> accepted (candidate_of value allow).
Proof. apply parse_semver_iff_accepted. Qed.

Lemma parse_semver_accepts_exactly_witness :
  exists v, _parse_semver (lit "v0\.0\x0-rc\.1\b7") true = Ok v.
Proof.
  apply (proj2 (parse_semver_accepts_exactly (lit "v0\.0\x0-rc\.1\b7") true)).
  exists 46, 120, (lit "-rc\.1"), (lit "\b7"), [].
  split; [reflexivity|]. split; [discriminate|]. split; [discriminate|].
  split; [|split; [|left; reflexivity]].
  - right. exists (lit "rc\.1"). split; [reflexivity|].
    apply (@ident_text_more (lit "rc") 46 (lit "1")).
    + apply ident_text_run. split; [discriminate | reflexivity].
    + discriminate.
    + split; [discriminate | reflexivity].
  - right. exists 0%nat, (lit "b7"). split; [reflexivity|].
    apply ident_text_run. split; [discriminate | reflexivity].
Defined.

Lemma candidate_of_snoc value allow a :
  value <> [] ->
  candidate_of (value ++ [a]) allow = candidate_of value allow ++ [a].
Proof.
  destruct value as [|x value]; [contradiction|]. intros _.
  unfold candidate_of. simpl. destruct (allow && (x =? 118)); reflexivity.
Qed.

(** X14.  A final newline gets through: if a string parses and does
    not already end in a newline, the same string with a newline added
    parses too (the [$] of the pattern matches before a final newline,
    and [match] asks for no more). *)
Theorem parse_semver_accepts_added_newline value allow v :
  _parse_semver value allow = Ok v ->
  (exists v', _parse_semver (value ++ [10]) allow = Ok v')
  \/ exists u, value = u ++ [10].
Proof.
  intros H.
  assert (A : accepted (candidate_of value allow))
    by (apply parse_semver_iff_accepted; eauto).
  destruct A as (x & y & pt & bt & nl & E & Hx & Hy & Hp & Hb & [-> | ->]).
  - left. apply parse_semver_iff_accepted.
    rewrite candidate_of_snoc.
    + exists x, y, pt, bt, [10]. rewrite E, app_nil_r.
      split; [simpl; rewrite <- app_assoc; reflexivity|].
      repeat (split; [assumption|]). right. reflexivity.
    + intros ->. destruct allow; discriminate.
  - right. unfold candidate_of in E.
    destruct (allow && startswith_v value) eqn:Ev.
    + destruct value as [|c value]; [discriminate|]. simpl in E.
      exists (c :: 48 :: 92 :: x :: 48 :: 92 :: y :: 48 :: pt ++ bt).
      rewrite E. simpl. rewrite <- app_assoc. reflexivity.
    + exists (48 :: 92 :: x :: 48 :: 92 :: y :: 48 :: pt ++ bt).
      rewrite E. simpl. rewrite <- app_assoc. reflexivity.
Qed.

Lemma parse_semver_accepts_added_newline_witness :
  (exists v', _parse_semver (lit "0\.0\.0-rc" ++ [10]) true = Ok v')
  \/ exists u, lit "0\.0\.0-rc" = u ++ [10].
Proof.
  apply (@parse_semver_accepts_added_newline
           (lit "0\.0\.0-rc") true (0, 0, 0, Some [lit "rc"], None)).
  vm_compute. reflexivity.
Defined.

(** ** Nothing of the text is lost *)

Lemma join_cons sep p q qs :
  join sep (p :: q :: qs) = p ++ sep ++ join sep (q :: qs).
Proof. reflexivity. Qed.

Lemma join_split g : join [46] (split 46 g) = g.
Proof.
  induction g as [|c g IH]; [reflexivity|]. cbn [split].
  destruct (split_cons 46 g) as (p & ps & E). rewrite E in *.
  destruct (c =? 46) eqn:Ec.
  - apply Z.eqb_eq in Ec. subst c. rewrite join_cons, IH. reflexivity.
  - destruct ps as [|q qs].
    + cbn [join] in *. rewrite IH. reflexivity.
    + rewrite join_cons in *. rewrite <- IH. reflexivity.
Qed.

(** X15.  The parsed version keeps the text it was read from: the
    string parsed is [0], backslash, a character, [0], backslash, a
    character, [0], then, if there is a prerelease, a hyphen and the
    identifiers joined by dots, then, if there is a build, one or more
    backslashes and the build text, then at most one newline. *)
Theorem parse_semver_keeps_the_text
  value allow major_n minor_n patch_n pre b :
  _parse_semver value allow = Ok (major_n, minor_n, patch_n, pre, b) ->
  exists x1 x2 n nl,
    candidate_of value allow
    = 48 :: 92 :: x1 :: 48 :: 92 :: x2 :: 48
      :: match pre with
         | Some ids => 45 :: join (lit ".") ids
         | None => []
         end
      ++ match b with
         | Some text => repeat 92 (S n) ++ text
         | None => []
         end
      ++ nl
    /\ (nl = [] \/ nl = [10]).
Proof.
  unfold _parse_semver. intros H.
  destruct (re_match _SEMVER_RE (candidate_of value allow)) as [m|] eqn:Em;
    [|discriminate].
  pose proof (semver_match_inv _ Em) as I.
  destruct I as (h1 & z1 & h2 & z2 & h3 & pre0 & b0 & t0 & _
                 & N1 & N2 & N3 & Eg0 & _).
  apply semver_match_full in Em.
  destruct Em as (g1 & x1 & g2 & x2 & g3 & pre_t & build_t & nl & pre' & b'
                  & Es & _ & _ & _ & _ & _ & Hnl & Eg & Hpre & Hb).
  rewrite Eg in Eg0. injection Eg0 as <- <- <- _ _. rewrite Eg in H.
  destruct (py_int g1) as [n1|] eqn:E1; [|discriminate].
  destruct (py_int g2) as [n2|] eqn:E2; [|discriminate].
  destruct (py_int g3) as [n3|] eqn:E3; [|discriminate].
  apply (py_int_numeric_capture N1) in E1. destruct E1 as [-> _].
  apply (py_int_numeric_capture N2) in E2. destruct E2 as [-> _].
  apply (py_int_numeric_capture N3) in E3. destruct E3 as [-> _].
  simpl in H. injection H as _ _ _ <- <-.
  assert (Ep : pre_t = match (if truthy pre'
                              then option_map (split 46) pre' else None) with
                       | Some ids => 45 :: join (lit ".") ids
                       | None => []
                       end).
  { destruct Hpre as [[-> ->] | (g & -> & -> & Hg)]; [reflexivity|].
    assert (Hne : g <> [])
      by (intros ->; inversion Hg as [w [Hw _] | g0 z w _ _ _ E];
          [contradiction | destruct g0; discriminate]).
    destruct g as [|c g]; [contradiction|]. cbn [truthy option_map].
    change (lit ".") with [46]. rewrite join_split. reflexivity. }
  destruct Hb as [[-> ->] | (n & g & -> & -> & Hg)].
  - exists x1, x2, 0%nat, nl. split; [|exact Hnl].
    rewrite Es, Ep. reflexivity.
  - exists x1, x2, n, nl. split; [|exact Hnl].
    rewrite Es, Ep. reflexivity.
Qed.

Lemma parse_semver_keeps_the_text_witness :
  exists x1 x2 n nl,
    candidate_of (lit "v0\.0\x0-rc\.1\7") true
    = 48 :: 92 :: x1 :: 48 :: 92 :: x2 :: 48
      :: (45 :: join (lit ".") [lit "rc" ++ [92]; lit "1"])
      ++ (repeat 92 (S n) ++ lit "7") ++ nl
    /\ (nl = [] \/ nl = [10]).
Proof.
  apply (@parse_semver_keeps_the_text
           (lit "v0\.0\x0-rc\.1\7") true 0 0 0
           (Some [lit "rc" ++ [92]; lit "1"]) (Some (lit "7"))).
  vm_compute. reflexivity.
Defined.

(** ** The identifiers of a parsed version *)

Lemma split_pieces sep s :
  Forall (fun p => ~ In sep p /\ forall x, In x p -> In x s) (split sep s).
Proof.
  induction s as [|c s IH]; simpl.
  - constructor; [|constructor]. split; [intros []|intros x []].
  - assert (IH' : Forall (fun p => ~ In sep p
                                   /\ forall x, In x p -> In x (c :: s))
                         (split sep s)).
    { eapply Forall_impl; [|exact IH]. intros p [H1 H2].
      split; [exact H1 | intros x Hx; right; apply H2, Hx]. }
    destruct (c =? sep) eqn:Ec.
    + constructor; [|exact IH']. split; [intros []|intros x []].
    + apply Z.eqb_neq in Ec.
      destruct (split sep s) as [|p ps]; [|inversion IH' as [|? ? [H1 H2] Hps]].
      * constructor; [|constructor]. split.
        -- intros [E|[]]. congruence.
        -- intros x [<-|[]]. left. reflexivity.
      * subst. constructor; [|exact Hps]. split.
        -- intros [E|Hin]; [congruence | exact (H1 Hin)].
        -- intros x [<-|Hin]; [left; reflexivity | apply H2, Hin].
Qed.

Lemma split_no_sep sep w : ~ In sep w -> split sep w = [w].
Proof.
  induction w as [|c w IH]; intros H; simpl; [reflexivity|].
  destruct (c =? sep) eqn:Ec.
  - apply Z.eqb_eq in Ec. subst c. exfalso. apply H. left. reflexivity.
  - rewrite IH; [reflexivity|]. intros Hin. apply H. right. exact Hin.
Qed.

Lemma split_app sep a b :
  split sep (a ++ b)
  = removelast (split sep a)
    ++ (last (split sep a) [] ++ hd [] (split sep b)) :: tl (split sep b).
Proof.
  induction a as [|c a IH]; simpl.
  - destruct (split_cons sep b) as (p & ps & ->). reflexivity.
  - destruct (split_cons sep a) as (p & ps & E). rewrite E in *.
    destruct (c =? sep).
    + rewrite IH. reflexivity.
    + rewrite IH. destruct ps; reflexivity.
Qed.

Lemma ident_char_not_special x :
  ident_char x = true -> x <> 46 /\ x <> 10 /\ x <> 92.
Proof.
  unfold ident_char, ident_chars, in_ranges. intros H.
  repeat (apply orb_true_iff in H; destruct H as [H|H]);
    try discriminate; apply andb_true_iff in H; destruct H as [H1 H2];
    apply Z.leb_le in H1; apply Z.leb_le in H2; lia.
Qed.

Lemma ident_run_plain w :
  ident_run w -> w <> [] /\ ~ In 46 w /\ ~ In 10 w.
Proof.
  intros [Hne Hall]. rewrite forallb_forall in Hall.
  split; [exact Hne|].
  split; intros Hin; apply Hall, ident_char_not_special in Hin; lia.
Qed.

Lemma ident_text_plain g : ident_text g -> g <> [] /\ ~ In 10 g.
Proof.
  induction 1 as [w Hw | g z w Hg [IH1 IH2] Hz Hw].
  - apply ident_run_plain in Hw. tauto.
  - apply ident_run_plain in Hw. destruct Hw as (_ & _ & Hw). split.
    + destruct g; discriminate.
    + intros Hin. apply in_app_or in Hin.
      destruct Hin as [Hin|[E|[E|Hin]]]; try tauto; congruence.
Qed.

Lemma in_removelast (A : Type) (l : list A) x :
  In x (removelast l) -> In x l.
Proof.
  induction l as [|a l IH]; simpl; [tauto|].
  destruct l as [|b l]; [intros []|]. intros [<-|Hin]; [left; reflexivity|].
  right. apply IH, Hin.
Qed.

Lemma ident_text_pieces g :
  ident_text g -> Forall (fun p => p <> []) (split 46 g).
Proof.
  induction 1 as [w Hw | g z w Hg IH Hz Hw].
  - apply ident_run_plain in Hw. destruct Hw as (Hne & Hdot & _).
    rewrite split_no_sep by exact Hdot. constructor; [exact Hne|constructor].
  - apply ident_run_plain in Hw. destruct Hw as (Hne & Hdot & _).
    rewrite split_app. apply Forall_app. split.
    + rewrite Forall_forall in *. intros p Hp. apply IH, in_removelast, Hp.
    + cbn [split]. rewrite (@split_no_sep 46 w Hdot).
      replace (92 =? 46) with false by reflexivity.
      destruct (z =? 46) eqn:Ez; cbn [hd tl].
      * constructor; [destruct (last (split 46 g) []); discriminate|].
        constructor; [exact Hne | constructor].
      * constructor; [destruct (last (split 46 g) []); discriminate|].
        constructor.
Qed.

Lemma parsed_identifiers_are_well_formed_aux
  value allow major_n minor_n patch_n pre b :
  _parse_semver value allow = Ok (major_n, minor_n, patch_n, pre, b) ->
  (forall ids, pre = Some ids ->
     ids <> []
     /\ Forall (fun a => a <> [] /\ ~ In 46 a /\ ~ In 10 a) ids)
  /\ (forall text, b = Some text -> text <> [] /\ ~ In 10 text).
Proof.
  unfold _parse_semver. intros H.
  destruct (re_match _SEMVER_RE (candidate_of value allow)) as [m|] eqn:Em;
    [|discriminate].
  apply semver_match_full in Em.
  destruct Em as (g1 & x1 & g2 & x2 & g3 & pre_t & build_t & nl & pre' & b'
                  & _ & _ & _ & _ & _ & _ & _ & Eg & Hpre & Hb).
  rewrite Eg in H.
  destruct (py_int g1) as [n1|]; [|discriminate].
  destruct (py_int g2) as [n2|]; [|discriminate].
  destruct (py_int g3) as [n3|]; [|discriminate].
  simpl in H. injection H as _ _ _ <- <-. split.
  - intros ids Hids.
    destruct Hpre as [[-> _] | (g & -> & _ & Hg)]; [discriminate|].
    destruct (ident_text_plain Hg) as [Hne Hnl].
    assert (Ht : truthy (Some g) = true)
      by (destruct g; [contradiction | reflexivity]).
    rewrite Ht in Hids. cbn [option_map] in Hids. injection Hids as <-.
    split.
    + destruct (split_cons 46 g) as (p & ps & ->). discriminate.
    + pose proof (ident_text_pieces Hg) as H1.
      pose proof (split_pieces 46 g) as H2.
      rewrite Forall_forall in *. intros a Ha.
      destruct (H2 a Ha) as [H3 H4].
      split; [apply H1, Ha|]. split; [exact H3|].
      intros Hin. apply Hnl, H4, Hin.
  - intros text ->.
    destruct Hb as [[E _] | (n & g & [= <-] & _ & Hg)]; [discriminate|].
    apply ident_text_plain, Hg.
Qed.

(** X16.  What a parsed version holds.  Its prerelease, when there is
    one, has at least one identifier, and no identifier is empty or
    contains a dot or a newline; its build text, when there is one, is
    not empty and contains no newline. *)
Theorem parsed_identifiers_are_well_formed
  value allow major_n minor_n patch_n pre b :
  _parse_semver value allow = Ok (major_n, minor_n, patch_n, pre, b) ->
  (forall ids, pre = Some ids ->
     ids <> []
     /\ Forall (fun a => a <> [] /\ ~ In 46 a /\ ~ In 10 a) ids)
  /\ (forall text, b = Some text -> text <> [] /\ ~ In 10 text).
Proof. apply parsed_identifiers_are_well_formed_aux. Qed.

Lemma parsed_identifiers_are_well_formed_witness :
  (forall ids, Some [lit "rc" ++ [92]; lit "1"] = Some ids ->
     ids <> []
     /\ Forall (fun a => a <> [] /\ ~ In 46 a /\ ~ In 10 a) ids)
  /\ (forall text, Some (lit "7") = Some text ->
        text <> [] /\ ~ In 10 text).
Proof.
  apply (@parsed_identifiers_are_well_formed
           (lit "v0\.0\x0-rc\.1\7") true 0 0 0
           (Some [lit "rc" ++ [92]; lit "1"]) (Some (lit "7"))).
  vm_compute. reflexivity.
Defined.

(** ** What the formatter writes, the parser refuses *)

Lemma lit_String a s : lit (String a s) = Z.of_nat (nat_of_ascii a) :: lit s.
Proof. reflexivity. Qed.

Lemma uint_digits d :
  Forall (fun x => 45 <= x <= 57) (lit (NilEmpty.string_of_uint d)).
Proof.
  induction d; cbn [NilEmpty.string_of_uint]; [constructor|..];
    rewrite lit_String; (constructor; [vm_compute; split; discriminate|]);
    assumption.
Qed.

(** [str(n)] is not empty and is made of digits and, maybe, a sign. *)
Lemma str_of_int_chars n :
  str_of_int n <> [] /\ Forall (fun x => 45 <= x <= 57) (str_of_int n).
Proof.
  unfold str_of_int, NilZero.string_of_int, NilZero.string_of_uint.
  destruct (Z.to_int n) as [d|d]; destruct d;
    rewrite ?lit_String; cbn [NilEmpty.string_of_uint];
    rewrite ?lit_String;
    (split; [discriminate|]);
    repeat (constructor; [vm_compute; split; discriminate|]);
    try apply uint_digits; constructor.
Qed.

(** The second character of whatever [_SEMVER_RE] matches is a
    backslash. *)
Lemma semver_match_backslash s m :
  re_match _SEMVER_RE s = Some m -> exists c rest, s = c :: 92 :: rest.
Proof.
  intros H. apply semver_match_inv in H.
  destruct H as (g1 & x1 & g2 & x2 & g3 & pre & b & tail
                 & -> & [-> | (d & ds & ->)] & _).
  - simpl. eauto.
  - simpl. eauto.
Qed.

(** X17.  No backslash, no version: a string whose second character,
    once the prefix rule has been applied, is not a backslash is
    refused with the "valid SemVer" error, and so is a string with
    fewer than two characters.  Every version written with dots is
    such a string. *)
Theorem parse_semver_refuses_without_backslash value allow :
  nth 1 (candidate_of value allow) 0 <> 92 ->
  _parse_semver value allow = Raise (ValueError invalid_semver_msg).
Proof.
  intros H. apply parse_semver_error.
  destruct (re_match _SEMVER_RE (candidate_of value allow)) as [m|] eqn:Em;
    [|reflexivity].
  apply semver_match_backslash in Em. destruct Em as (c & rest & E).
  rewrite E in H. simpl in H. contradiction.
Qed.

Lemma parse_semver_refuses_without_backslash_witness :
  _parse_semver (lit "v12.4.0-rc.1+build.5") true
  = Raise (ValueError invalid_semver_msg).
Proof.
  apply (@parse_semver_refuses_without_backslash
           (lit "v12.4.0-rc.1+build.5") true).
  vm_compute. discriminate.
Defined.

Lemma format_semver_head major_n minor_n patch_n pre b :
  exists c1 c2 rest,
    _format_semver major_n minor_n patch_n pre b = c1 :: c2 :: rest
    /\ 45 <= c1 <= 57 /\ 45 <= c2 <= 57.
Proof.
  unfold _format_semver. change (lit ".") with [46].
  destruct (str_of_int_chars major_n) as [Hne Hall].
  destruct (str_of_int major_n) as [|c1 [|c2 t]]; [contradiction|..];
    inversion Hall as [|? ? H1 Hall']; subst.
  - destruct pre as [[|i ids]|], b as [[|x xs]|]; simpl;
      do 3 eexists; (split; [reflexivity|]); split; (assumption || lia).
  - inversion Hall' as [|? ? H2 _]; subst.
    destruct pre as [[|i ids]|], b as [[|x xs]|]; simpl;
      do 3 eexists; (split; [reflexivity|]); split; assumption.
Qed.

(** X18.  What [_format_semver] writes, [_parse_semver] refuses: for
    any version whatever, the formatted string is turned down, with the
    prefix rule on or off.  The formatter writes the release with dots;
    the parser wants backslashes. *)
Theorem formatted_version_is_refused major_n minor_n patch_n pre b allow :
  _parse_semver (_format_semver major_n minor_n patch_n pre b) allow
  = Raise (ValueError invalid_semver_msg).
Proof.
  destruct (format_semver_head major_n minor_n patch_n pre b)
    as (c1 & c2 & rest & -> & H1 & H2).
  apply parse_semver_error.
  assert (E : candidate_of (c1 :: c2 :: rest) allow = c1 :: c2 :: rest).
  { unfold candidate_of. simpl.
    replace (c1 =? 118) with false by (symmetry; apply Z.eqb_neq; lia).
    rewrite andb_false_r. reflexivity. }
  rewrite E.
  destruct (re_match _SEMVER_RE (c1 :: c2 :: rest)) as [m|] eqn:Em;
    [|reflexivity].
  apply semver_match_backslash in Em. destruct Em as (c & t & [= _ -> _]).
  lia.
Qed.

(** X19.  A bump that keeps the prerelease: for every version the
    parser accepts, [new] is "1.0.0", "0.1.0" or "0.0.1" according to
    the part, followed by a hyphen and the prerelease identifiers joined
    by dots when there is a prerelease, and by a plus sign and the build
    text when there is one. *)
Theorem bump_version_with_keep
  value p dry allow major_n minor_n patch_n pre b :
  _parse_semver value allow = Ok (major_n, minor_n, patch_n, pre, b) ->
  bump_version {| version := value; part := p; dry_run := dry;
                  allow_v_prefix := allow; keep_prerelease := true |}
  = Ok {| old := value;
          new := match p with
                 | BumpPart.major => lit "1.0.0"
                 | BumpPart.minor => lit "0.1.0"
                 | BumpPart.patch => lit "0.0.1"
                 end
                 ++ match pre with
                    | Some ids => lit "-" ++ join (lit ".") ids
                    | None => []
                    end
                 ++ match b with
                    | Some text => lit "+" ++ text
                    | None => []
                    end;
          dryRun := dry |}.
Proof.
  intros H.
  destruct (@parsed_identifiers_are_well_formed_aux
              value allow major_n minor_n patch_n pre b H) as [Hpre Hb].
  destruct (@parse_semver_inv value allow _ H)
    as (x1 & x2 & g & b' & tail & _ & [= -> -> -> _ _] & _).
  unfold bump_version.
  cbn [version allow_v_prefix part keep_prerelease dry_run]. rewrite H.
  cbn [bind]. f_equal. f_equal.
  unfold format_version, bump_parsed, _format_semver.
  assert (Ep : match pre with
               | Some (i :: ids) => True
               | Some [] => False
               | None => True
               end)
    by (destruct pre as [[|i ids]|]; auto;
        destruct (Hpre [] eq_refl) as [Hne _]; apply Hne; reflexivity).
  assert (Eb : match b with
               | Some (x :: xs) => True
               | Some [] => False
               | None => True
               end)
    by (destruct b as [[|x xs]|]; auto;
        destruct (Hb [] eq_refl) as [Hne _]; apply Hne; reflexivity).
  destruct p, pre as [[|i ids]|], b as [[|x xs]|]; try contradiction;
    cbn [negb Z.add]; change (str_of_int (0 + 1)) with [49];
    change (str_of_int 0) with [48]; change (lit ".") with [46];
    change (lit "-") with [45]; change (lit "+") with [43];
    cbn [app]; rewrite ?app_nil_r; reflexivity.
Qed.

Lemma bump_version_with_keep_witness :
  bump_version {| version := lit "v0\.0\x0-rc\.1\7"; part := BumpPart.major;
                  dry_run := false; allow_v_prefix := true;
                  keep_prerelease := true |}
  = Ok {| old := lit "v0\.0\x0-rc\.1\7";
          new := lit "1.0.0"
                 ++ (lit "-" ++ join (lit ".") [lit "rc" ++ [92]; lit "1"])
                 ++ (lit "+" ++ lit "7");
          dryRun := false |}.
Proof.
  apply (@bump_version_with_keep
           (lit "v0\.0\x0-rc\.1\7") BumpPart.major false true 0 0 0
           (Some [lit "rc" ++ [92]; lit "1"]) (Some (lit "7"))).
  vm_compute. reflexivity.
Defined.

(** X20.  Between two strings the parser accepts, the prerelease alone
    decides.  When the numeric prerelease identifiers of both are
    within the digit limit of [int], the result is the sign of the
    order of the two prereleases, an absent one being the greatest.
    The release cannot differ, and the build is not looked at; so two
    accepted strings without prerelease always compare equal.
    Whatever the lengths, a result the comparison returns is that sign,
    and an exception it raises is the limit error of [int]. *)
Theorem compare_semver_decided_by_prerelease left_s right_s allow l r :
  _parse_semver left_s allow = Ok l ->
  _parse_semver right_s allow = Ok r ->
  let cmp := _compare_semver left_s right_s allow in
  (convertible_pre (prerelease l) = true ->
   convertible_pre (prerelease r) = true ->
   cmp = Ok (sign (pre_compare (prerelease l) (prerelease r))))
  /\ (prerelease l = None -> prerelease r = None -> cmp = Ok 0)
  /\ (forall c, cmp = Ok c ->
      c = sign (pre_compare (prerelease l) (prerelease r)))
  /\ (forall e, cmp = Raise e ->
      exists n, e = IntLimitError n /\ int_max_str_digits < n).
Proof.
  intros Hl Hr cmp.
  assert (P : precedence l r = pre_compare (prerelease l) (prerelease r)).
  { destruct (@parse_semver_inv left_s allow l Hl)
      as (? & ? & ? & ? & ? & _ & -> & _).
    destruct (@parse_semver_inv right_s allow r Hr)
      as (? & ? & ? & ? & ? & _ & -> & _).
    reflexivity. }
  assert (E : convertible_pre (prerelease l) = true ->
              convertible_pre (prerelease r) = true ->
              cmp = Ok (sign (pre_compare (prerelease l) (prerelease r)))).
  { intros Cl Cr. rewrite <- P. apply compare_semver_spec; try assumption.
    apply compare_returns_convertible; assumption. }
  split; [exact E|]. split; [|split].
  - intros El Er. rewrite E.
    + rewrite El, Er. reflexivity.
    + rewrite El. reflexivity.
    + rewrite Er. reflexivity.
  - intros c Hc.
    destruct (@compare_semver_cases left_s right_s allow l r Hl Hr)
      as [[_ H]|[_ (n & H & _)]];
      fold cmp in H; rewrite H in Hc; [|discriminate].
    injection Hc as <-. rewrite P. reflexivity.
  - intros e He.
    destruct (@compare_semver_cases left_s right_s allow l r Hl Hr)
      as [[_ H]|[_ (n & H & Hn)]];
      fold cmp in H; rewrite H in He; [discriminate|].
    injection He as <-. exists n. split; [reflexivity | exact Hn].
Qed.

Lemma compare_semver_decided_by_prerelease_witness :
  _compare_semver (lit "0\.0\.0\b1") (lit "v0\x0\y0") true = Ok 0
  /\ _compare_semver (lit "0\.0\.0-rc\.2") (lit "v0\x0\y0-rc\.10") true
     = Ok (-1).
Proof.
  split.
  - destruct (@compare_semver_decided_by_prerelease
                (lit "0\.0\.0\b1") (lit "v0\x0\y0") true
                (0, 0, 0, None, Some (lit "b1")) (0, 0, 0, None, None))
      as (_ & H & _); [vm_compute; reflexivity..|].
    apply H; reflexivity.
  - destruct (@compare_semver_decided_by_prerelease
                (lit "0\.0\.0-rc\.2") (lit "v0\x0\y0-rc\.10") true
                (0, 0, 0, Some [lit "rc" ++ [92]; lit "2"], None)
                (0, 0, 0, Some [lit "rc" ++ [92]; lit "10"], None))
      as (H & _); [vm_compute; reflexivity..|].
    apply H; vm_compute; reflexivity.
Defined.

(** The limit on two accepted strings: a prerelease identifier of 4301
    digits against a numeric one makes the comparison raise; one of
    4300 digits compares as the greater integer. *)
Lemma compare_semver_digit_limit_examples :
  _compare_semver (lit "0\.0\.0-" ++ repeat 49 4301) (lit "0\.0\.0-2") true
  = Raise (IntLimitError 4301)
  /\ _compare_semver (lit "0\.0\.0-" ++ repeat 49 4300) (lit "0\.0\.0-2") true
     = Ok 1.
Proof. split; vm_compute; reflexivity. Qed.

(** ** The operators of [compare_versions] *)

Lemma cmp_ident_range a b c :
  _cmp_ident a b = Ok c -> c = -1 \/ c = 0 \/ c = 1.
Proof.
  unfold _cmp_ident. destruct (isdigit a), (isdigit b); cbn [andb negb].
  - destruct (py_int a) as [ai|]; [|discriminate].
    destruct (py_int b) as [bi|]; [|discriminate]. cbn [bind].
    intros [= <-]. destruct (ai <? bi); [auto|]. destruct (ai >? bi); auto.
  - intros [= <-]. auto.
  - intros [= <-]. auto.
  - intros [= <-]. destruct (str_ltb a b); [auto|].
    destruct (str_ltb b a); auto.
Qed.

Lemma first_difference_range pairs :
  forall c, first_difference pairs = Ok (Some c) -> c = -1 \/ c = 1.
Proof.
  induction pairs as [|[a b] pairs IH]; intros c; cbn [first_difference];
    [discriminate|].
  destruct (_cmp_ident a b) as [x|] eqn:E; [|discriminate]. cbn [bind].
  destruct (Z.eqb_spec x 0) as [_|Hx]; cbn [negb]; [apply IH|].
  intros [= <-]. apply cmp_ident_range in E. lia.
Qed.

(** The comparator returns -1, 0 or 1 and nothing else. *)
Lemma compare_parsed_range l r c :
  compare_parsed l r = Ok c -> c = -1 \/ c = 0 \/ c = 1.
Proof.
  destruct l as [[[[l1 l2] l3] lp] lb], r as [[[[r1 r2] r3] rp] rb].
  unfold compare_parsed.
  destruct (triple_neqb (l1, l2, l3) (r1, r2, r3)).
  { destruct (triple_ltb (l1, l2, l3) (r1, r2, r3)); intros [= <-]; auto. }
  destruct lp as [lp|], rp as [rp|]; try (intros [= <-]; auto).
  destruct (first_difference (combine lp rp)) as [[x|]|] eqn:E; cbn [bind];
    try discriminate.
  - intros [= <-]. apply first_difference_range in E. tauto.
  - destruct (Nat.eqb (length lp) (length rp)); [intros [= <-]; auto|].
    destruct (length lp <? length rp)%nat; intros [= <-]; auto.
Qed.

(** X22.  [compare_versions] reads all five operators off the one
    result of [_compare_semver]: that result is -1, 0 or 1; lt holds
    for -1 only, eq for 0 only, gt for 1 only, lte for all but 1 and gte
    for all but -1.  The strings and the name of the operator are
    echoed.  When [_compare_semver] raises, [compare_versions] raises
    the same exception. *)
Theorem compare_versions_operators left_s right_s allow o :
  let args := {| left := left_s; right := right_s; op := o;
                 cmp_allow_v_prefix := allow |} in
  (forall c,
      _compare_semver left_s right_s allow = Ok c ->
      (c = -1 \/ c = 0 \/ c = 1)
      /\ compare_versions args
         = Ok {| res_left := left_s; res_right := right_s;
                 res_op := CompareOp.value o;
                 res_result := match o with
                               | CompareOp.lt => c =? -1
                               | CompareOp.lte => negb (c =? 1)
                               | CompareOp.eq => c =? 0
                               | CompareOp.gte => negb (c =? -1)
                               | CompareOp.gt => c =? 1
                               end |})
  /\ (forall e,
        _compare_semver left_s right_s allow = Raise e ->
        compare_versions args = Raise e).
Proof.
  intros args. split.
  - intros c Hc.
    assert (R : c = -1 \/ c = 0 \/ c = 1).
    { revert Hc. unfold _compare_semver.
      destruct (_parse_semver left_s allow) as [l|]; [|discriminate].
      destruct (_parse_semver right_s allow) as [r|]; [|discriminate].
      cbn [bind]. apply compare_parsed_range. }
    split; [exact R|].
    unfold compare_versions, args. cbn [left right op cmp_allow_v_prefix].
    rewrite Hc. cbn [bind].
    destruct R as [->|[->| ->]]; destruct o; reflexivity.
  - intros e He. unfold compare_versions, args.
    cbn [left right op cmp_allow_v_prefix]. rewrite He. reflexivity.
Qed.

Lemma compare_versions_operators_witness :
  compare_versions {| left := lit "0\.0\.0-rc\.2"; right := lit "0\.0\.0";
                      op := CompareOp.lte; cmp_allow_v_prefix := true |}
  = Ok {| res_left := lit "0\.0\.0-rc\.2"; res_right := lit "0\.0\.0";
          res_op := lit "lte"; res_result := true |}.
Proof.
  destruct (compare_versions_operators
              (lit "0\.0\.0-rc\.2") (lit "0\.0\.0") true CompareOp.lte)
    as [H _].
  destruct (H (-1)) as [_ E]; [vm_compute; reflexivity|].
  exact E.
Defined.

(** ** The merged file list of [repo_rg.search] *)

Lemma merge_loop_spec paths :
  forall seen merged bound max_results,
    bound = Z.to_nat (Z.max 1 max_results) ->
    (length merged < bound)%nat ->
    (merged = [] -> seen = []) ->
    merge_loop paths seen merged max_results
    = merged ++ firstn (bound - length merged) (first_occurrences seen paths).
Proof.
  induction paths as [|pth paths IH];
    intros seen merged bound max_results Hb Hlen Hseen; simpl.
  - rewrite firstn_nil, app_nil_r. reflexivity.
  - destruct (in_dec str_eq_dec pth seen) as [Hin|Hnin].
    + assert (Hmax : 1 <= max_results).
      { destruct merged; [rewrite Hseen in Hin by reflexivity; destruct Hin|].
        simpl in Hlen. lia. }
      replace (Z.of_nat (length merged) >=? max_results) with false
        by (symmetry; rewrite Z.geb_leb; apply Z.leb_gt; lia).
      apply IH; assumption.
    + rewrite length_app. cbn [length].
      destruct (Z.of_nat (length merged + 1) >=? max_results) eqn:E.
      * rewrite Z.geb_leb in E. apply Z.leb_le in E.
        replace (bound - length merged)%nat with 1%nat by lia.
        reflexivity.
      * rewrite Z.geb_leb in E. apply Z.leb_gt in E.
        rewrite (IH (pth :: seen) (merged ++ [pth]) bound max_results Hb).
        -- rewrite length_app. cbn [length].
           replace (bound - length merged)%nat
             with (S (bound - (length merged + 1)))%nat by lia.
           rewrite <- app_assoc. reflexivity.
        -- rewrite length_app. cbn [length]. lia.
        -- intros Hnil. destruct merged; discriminate.
Qed.

Lemma first_occurrences_spec l :
  forall seen,
    NoDup (first_occurrences seen l)
    /\ (forall a, In a (first_occurrences seen l) <-> In a l /\ ~ In a seen).
Proof.
  induction l as [|x l IH]; intros seen; simpl.
  - split; [constructor | intros a; tauto].
  - destruct (in_dec str_eq_dec x seen) as [Hin|Hnin].
    + destruct (IH seen) as [H1 H2]. split; [exact H1|].
      intros a. rewrite H2. split; [tauto|].
      intros [[<-|Ha] Hs]; [contradiction | tauto].
    + destruct (IH (x :: seen)) as [H1 H2]. split.
      * constructor; [|exact H1]. rewrite H2. simpl. tauto.
      * intros a. simpl. rewrite H2. simpl. split.
        -- intros [<-|[Ha Hs]]; tauto.
        -- intros [[<-|Ha] Hs]; [tauto|].
           destruct (str_eq_dec x a) as [->|Hne]; tauto.
Qed.

Lemma in_firstn (A : Type) n (l : list A) x : In x (firstn n l) -> In x l.
Proof.
  intros H. rewrite <- (firstn_skipn n l). apply in_or_app. left. exact H.
Qed.

Lemma NoDup_firstn (A : Type) n (l : list A) : NoDup l -> NoDup (firstn n l).
Proof.
  intros H. rewrite <- (firstn_skipn n l) in H.
  apply NoDup_app_remove_r in H. exact H.
Qed.

(** X21.  The merged file list holds the distinct paths of
    [content_files + name_files] in the order of their first
    appearance, cut after [max_results] of them (after one when
    [max_results] is below 1).  So it never lists a path twice, lists
    only paths of the two lists, and for [max_results] of 1 or more is
    no longer than [max_results]. *)
Theorem merge_files_spec content_files name_files max_results :
  let merged := merge_files content_files name_files max_results in
  merged = firstn (Z.to_nat (Z.max 1 max_results))
                  (first_occurrences [] (content_files ++ name_files))
  /\ NoDup merged
  /\ (forall pth, In pth merged -> In pth (content_files ++ name_files))
  /\ (1 <= max_results -> Z.of_nat (length merged) <= max_results).
Proof.
  intros merged.
  assert (E : merged = firstn (Z.to_nat (Z.max 1 max_results))
                         (first_occurrences [] (content_files ++ name_files))).
  { unfold merged, merge_files.
    rewrite (@merge_loop_spec _ [] [] _ max_results eq_refl).
    - rewrite Nat.sub_0_r. reflexivity.
    - simpl. lia.
    - reflexivity. }
  destruct (first_occurrences_spec (content_files ++ name_files) [])
    as [Hnd Hin].
  split; [exact E|]. rewrite E. split; [|split].
  - apply NoDup_firstn, Hnd.
  - intros pth Hp. apply in_firstn in Hp. apply Hin in Hp. tauto.
  - intros Hmax. rewrite length_firstn. lia.
Qed.

Lemma merge_files_spec_witness :
  Z.of_nat (length (merge_files [lit "a.py"; lit "b.py"]
                                [lit "b.py"; lit "c.py"; lit "a.py"] 2))
  <= 2.
Proof.
  apply (merge_files_spec [lit "a.py"; lit "b.py"]
                          [lit "b.py"; lit "c.py"; lit "a.py"] 2).
  lia.
Defined.
